(** * lichess-bot: the session orchestrator of [main.py]

    A shallow embedding of the control loop [start] (the Admission
    Controller) and of the per-game driver [play_game] (the Session
    Driver), together with their helpers, and the properties of the
    specification that are decided by this code.

    Python integers are unbounded, so counters, clocks and scores are [Z].
    Calls to collaborators (the Lichess client [li], the engine, the
    polyglot reader) are modelled by explicit state passing over an opaque
    world, each call returning either a value or a raised exception. *)

From Stdlib Require Import ZArith List String Ascii Bool Lia.
From Stdlib Require Import Sorting.Sorted Sorting.Permutation.
Import ListNotations.

Local Open Scope Z_scope.

(** ** Exceptions and results *)

(** The exception classes the source names, and the built-in ones its
    expressions can raise. *)
Inductive exn : Type :=
| RemoteDisconnected
| ConnectionError
| ProtocolError
| HTTPError (status_code : Z)
| StopIteration
| IndexError
| KeyError
| ValueError
| OtherException (name : string).

Inductive result (A : Type) : Type :=
| Returns (a : A)
| Raises (e : exn).

Arguments Returns {A} a.
Arguments Raises {A} e.

(** ** Stable sort, as [list.sort(key=...)] *)

Section ListSort.
Context {A : Type}.
Variable key : A -> Z.

(** [insert_by x l] puts [x] in front of the first element whose key is
    not smaller: an element moves left only past strictly larger keys. *)
Fixpoint insert_by (x : A) (l : list A) : list A :=
  match l with
  | [] => [x]
  | y :: l' => if key x <=? key y then x :: y :: l' else y :: insert_by x l'
  end.

(** Python's [list.sort] is a stable ascending sort on the keys; the
    result of a stable sort is unique, and insertion sort computes it. *)
Fixpoint list_sort (l : list A) : list A :=
  match l with
  | [] => []
  | x :: l' => insert_by x (list_sort l')
  end.

(** Where a new last element ends up: behind every key that is not
    larger. *)
Fixpoint insert_last (x : A) (l : list A) : list A :=
  match l with
  | [] => [x]
  | y :: l' => if key x <? key y then x :: y :: l' else y :: insert_last x l'
  end.

Definition key_sorted (l : list A) : Prop :=
  StronglySorted (fun a b => key a <= key b) l.
End ListSort.

(** ** The Admission Controller: [start] *)

Module Admission.

(** The two configuration entries [start] reads. *)
Record Config : Type := {
  max_concurrent_games : Z;
  sort_challenges_by : option string   (* config.get("sort_challenges_by") *)
}.

(** [model.Challenge] is not part of [main.py]; the loop uses its [id],
    its [score()] and its [is_supported(config)]. *)
Class ChallengeModel : Type := {
  Challenge : Type;
  chlng_id : Challenge -> string;
  score : Challenge -> Z;
  is_supported : Challenge -> Config -> bool
}.

(** The two requests [start] sends through the Lichess client. The client
    has a state of its own (the server behind it), so the same request can
    be answered differently at different times. *)
Class LichessClient : Type := {
  Li : Type;
  decline_challenge : Li -> string -> Li * result unit;
  accept_challenge : Li -> string -> Li * result unit
}.

Section Controller.
Context {CM : ChallengeModel} {LC : LichessClient}.
Variable config : Config.

Inductive event : Type :=
| LocalGameDone                      (* {"type": "local_game_done"} *)
| ChallengeEvent (chlng : Challenge) (* {"type": "challenge", ...} *)
| GameStart (game_id : string)       (* {"type": "gameStart", ...} *)
| OtherEvent (type : string).        (* ping and everything else *)

(** What the loop does to the outside, in order. *)
Inductive action : Type :=
| Decline (chlng : Challenge)     (* li.decline_challenge(chlng.id) *)
| Accept (chlng : Challenge)      (* li.accept_challenge(chlng.id) *)
| NoQueuedProcess                 (* the "Something went wrong" line *)
| ApplyAsync (game_id : string).  (* pool.apply_async(play_game, ...) *)

Definition max_games : Z := max_concurrent_games config.

(** The local variables of [start]. *)
Record state : Type := {
  challenge_queue : list Challenge;
  busy_processes : Z;
  queued_processes : Z;
  li : Li;
  log : list action
}.

Definition init (w : Li) : state :=
  {| challenge_queue := []; busy_processes := 0; queued_processes := 0;
     li := w; log := [] |}.

(** [config.get("sort_challenges_by") != "first"] *)
Definition sorts_by_score : bool :=
  match sort_challenges_by config with
  | Some mode => negb (String.eqb mode "first"%string)
  | None => true
  end.

(** [key=lambda c: -c.score()] *)
Definition sort_key (c : Challenge) : Z := - score c.

(** The [if]/[elif] chain on [event["type"]]. *)
Definition handle_event (st : state) (ev : event) : result state :=
  match ev with
  | LocalGameDone =>
      Returns {| challenge_queue := challenge_queue st;
                 busy_processes := busy_processes st - 1;
                 queued_processes := queued_processes st;
                 li := li st; log := log st |}
  | ChallengeEvent chlng =>
      if is_supported chlng config then
        let q := challenge_queue st ++ [chlng] in
        Returns {| challenge_queue :=
                     if sorts_by_score then list_sort sort_key q else q;
                   busy_processes := busy_processes st;
                   queued_processes := queued_processes st;
                   li := li st; log := log st |}
      else
        let (w, r) := decline_challenge (li st) (chlng_id chlng) in
        let st' := {| challenge_queue := challenge_queue st;
                      busy_processes := busy_processes st;
                      queued_processes := queued_processes st;
                      li := w; log := log st ++ [Decline chlng] |} in
        match r with
        | Returns _ => Returns st'
        | Raises (HTTPError status_code) =>
            if status_code =? 404 then Returns st'
            else Raises (HTTPError status_code)
        | Raises e => Raises e
        end
  | GameStart game_id =>
      let anomaly := queued_processes st <=? 0 in
      Returns {| challenge_queue := challenge_queue st;
                 busy_processes := busy_processes st + 1;
                 queued_processes :=
                   if anomaly then queued_processes st
                   else queued_processes st - 1;
                 li := li st;
                 log := log st
                        ++ (if anomaly then [NoQueuedProcess] else [])
                        ++ [ApplyAsync game_id] |}
  | OtherEvent _ => Returns st
  end.

(** The inner [while] loop: it ends because every round pops one
    challenge. *)
Fixpoint drain (q : list Challenge) (busy queued : Z) (w : Li)
    (lg : list action) : result state :=
  match q with
  | [] => Returns {| challenge_queue := []; busy_processes := busy;
                     queued_processes := queued; li := w; log := lg |}
  | chlng :: rest =>
      if queued + busy <? max_games then
        let (w', r) := accept_challenge w (chlng_id chlng) in
        let lg' := lg ++ [Accept chlng] in
        match r with
        | Returns _ => drain rest busy (queued + 1) w' lg'
        | Raises (HTTPError status_code) =>
            if status_code =? 404 then drain rest busy queued w' lg'
            else Raises (HTTPError status_code)
        | Raises e => Raises e
        end
      else Returns {| challenge_queue := q; busy_processes := busy;
                      queued_processes := queued; li := w; log := lg |}
  end.

Definition drain_queue (st : state) : result state :=
  drain (challenge_queue st) (busy_processes st) (queued_processes st)
        (li st) (log st).

(** One round of [while True]: handle the event, then drain. *)
Definition control_step (st : state) (ev : event) : result state :=
  match handle_event st ev with
  | Returns st' => drain_queue st'
  | Raises e => Raises e
  end.

(** The loop on the events the control queue delivers; an exception ends
    it. *)
Fixpoint run (st : state) (evs : list event) : result state :=
  match evs with
  | [] => Returns st
  | ev :: rest =>
      match control_step st ev with
      | Returns st' => run st' rest
      | Raises e => Raises e
      end
  end.

Definition start (w : Li) (evs : list event) : result state :=
  run (init w) evs.





(** The eligible challenges of an event sequence, in arrival order. *)
Fixpoint eligible (evs : list event) : list Challenge :=
  match evs with
  | [] => []
  | ChallengeEvent c :: rest =>
      if is_supported c config then c :: eligible rest else eligible rest
  | _ :: rest => eligible rest
  end.

(** The challenges popped from the queue, in the order of the pops. *)
Fixpoint popped (lg : list action) : list Challenge :=
  match lg with
  | [] => []
  | Accept c :: rest => c :: popped rest
  | _ :: rest => popped rest
  end.

Definition with_score (s : Z) (l : list Challenge) : list Challenge :=
  filter (fun c => score c =? s) l.

(** [drains_to st st']: the drain, started in [st], is in [st'] after
    some rounds of its loop, each of which popped a challenge whose
    accept request was answered with success or with HTTP status 404. *)
Inductive drains_to : state -> state -> Prop :=
| drains_here (st : state) : drains_to st st
| drains_accepted (st st' : state) (chlng : Challenge)
    (rest : list Challenge) (w' : Li) :
    challenge_queue st = chlng :: rest ->
    queued_processes st + busy_processes st < max_games ->
    accept_challenge (li st) (chlng_id chlng) = (w', Returns tt) ->
    drains_to {| challenge_queue := rest;
                 busy_processes := busy_processes st;
                 queued_processes := queued_processes st + 1;
                 li := w'; log := log st ++ [Accept chlng] |} st' ->
    drains_to st st'
| drains_missing (st st' : state) (chlng : Challenge)
    (rest : list Challenge) (w' : Li) :
    challenge_queue st = chlng :: rest ->
    queued_processes st + busy_processes st < max_games ->
    accept_challenge (li st) (chlng_id chlng)
      = (w', Raises (HTTPError 404)) ->
    drains_to {| challenge_queue := rest;
                 busy_processes := busy_processes st;
                 queued_processes := queued_processes st;
                 li := w'; log := log st ++ [Accept chlng] |} st' ->
    drains_to st st'.

(** The challenges declined, in the order of the requests. *)
Fixpoint declined (lg : list action) : list Challenge :=
  match lg with
  | [] => []
  | Decline c :: rest => c :: declined rest
  | _ :: rest => declined rest
  end.

(** The games handed to the pool, in order. *)
Fixpoint launched (lg : list action) : list string :=
  match lg with
  | [] => []
  | ApplyAsync game_id :: rest => game_id :: launched rest
  | _ :: rest => launched rest
  end.

(** The challenges of an event sequence that are not supported. *)
Fixpoint ineligible (evs : list event) : list Challenge :=
  match evs with
  | [] => []
  | ChallengeEvent c :: rest =>
      if is_supported c config then ineligible rest else c :: ineligible rest
  | _ :: rest => ineligible rest
  end.

(** The games of the gameStart events, and the number of local_game_done
    events. *)
Fixpoint game_starts (evs : list event) : list string :=
  match evs with
  | [] => []
  | GameStart game_id :: rest => game_id :: game_starts rest
  | _ :: rest => game_starts rest
  end.

Fixpoint games_done (evs : list event) : nat :=
  match evs with
  | [] => 0%nat
  | LocalGameDone :: rest => S (games_done rest)
  | _ :: rest => games_done rest
  end.

(** An event of a type the loop has no branch for. *)
Definition is_other (ev : event) : bool :=
  match ev with OtherEvent _ => true | _ => false end.

(** *** The Control Stream Relay: [watch_control_stream] *)

(** [{"type": "ping"}] *)
Definition ping : event := OtherEvent "ping".

(** The relay on the lines the event stream delivers. [loads] is
    [json.loads(evnt.decode('utf-8'))] followed by the reading of the
    event's type; the queue is [manager.Queue()], to which [put_nowait]
    appends. An exception of [loads] ends the relay. *)
Fixpoint watch_control_stream (loads : string -> result event)
    (lines : list string) (control_queue : list event)
  : result unit * list event :=
  match lines with
  | [] => (Returns tt, control_queue)
  | evnt :: rest =>
      match evnt with
      | EmptyString =>
          watch_control_stream loads rest (control_queue ++ [ping])
      | _ =>
          match loads evnt with
          | Returns ev =>
              watch_control_stream loads rest (control_queue ++ [ev])
          | Raises e => (Raises e, control_queue)
          end
      end
  end.

End Controller.

End Admission.

(** ** The Session Driver: [play_game] and its helpers *)

Module Session.

(** *** Strings: [str.split()] and [str.lower()] *)

(** The ASCII white space [str.split()] cuts at. *)
Definition is_space (a : ascii) : bool :=
  let n := nat_of_ascii a in
  ((9 <=? n) && (n <=? 13) || (28 <=? n) && (n <=? 32))%nat.

(** [split_from cur s]: the words of [s], the first one continuing [cur]. *)
Fixpoint split_from (cur : string) (s : string) : list string :=
  match s with
  | EmptyString =>
      match cur with EmptyString => [] | _ => [cur] end
  | String a s' =>
      if is_space a then
        match cur with
        | EmptyString => split_from EmptyString s'
        | _ => cur :: split_from EmptyString s'
        end
      else split_from (cur ++ String a EmptyString)%string s'
  end.

(** [s.split()] *)
Definition split (s : string) : list string := split_from EmptyString s.

Definition lower_ascii (a : ascii) : ascii :=
  let n := nat_of_ascii a in
  if ((65 <=? n) && (n <=? 90))%nat then ascii_of_nat (n + 32) else a.

(** [s.lower()] *)
Fixpoint lower (s : string) : string :=
  match s with
  | EmptyString => EmptyString
  | String a s' => String (lower_ascii a) (lower s')
  end.

(** [moves[-1]] *)
Fixpoint last_item {A : Type} (l : list A) : option A :=
  match l with
  | [] => None
  | [x] => Some x
  | _ :: l' => last_item l'
  end.

(** *** Data *)

(** [config["engine"]] *)
Record EngineConfig : Type := {
  polyglot : bool;
  polyglot_book : string;
  polyglot_random : bool;
  polyglot_min_weight : Z;
  polyglot_max_depth : Z
}.

(** The attributes of [model.Game] that [main.py] reads; [state_moves] is
    [game.state["moves"]], the moves as one string. *)
Record Game : Type := {
  game_id : string;
  is_white : bool;
  white_starts : bool;
  variant_name : string;
  initial_fen : string;
  state_moves : string
}.

(** [game.state = upd] *)
Definition set_state (game : Game) (moves : string) : Game :=
  {| game_id := game_id game; is_white := is_white game;
     white_starts := white_starts game; variant_name := variant_name game;
     initial_fen := initial_fen game; state_moves := moves |}.

(** The parts of python-chess the driver calls. *)
Class Chess : Type := {
  Move : Type;
  from_uci : string -> option Move;   (* None: ValueError *)
  valid_fen : string -> bool;         (* chess.Board(fen) accepts it *)
  find_variant : string -> bool       (* find_variant knows the name *)
}.

Inductive setup : Type :=
| Chess960 (fen : string)
| FromPosition (fen : string)
| Variant (name : string).

(** A board is where it started and the moves pushed since. *)
Record Board `{Chess} : Type := {
  board_setup : setup;
  move_stack : list Move
}.

(** A message of the game stream, decoded. *)
Inductive update : Type :=
| GameFull (game : Game)
| ChatLine (text : string)
| GameState (moves : string) (wtime btime winc binc : Z)
| OtherUpdate (type : string).   (* any other type, "ping" included *)

(** What reading the stream once gives: a chunk ([None] is the empty
    keep-alive line), or an exception of the transport. A stream that
    cannot be opened is a stream whose first read raises. *)
Inductive line : Type :=
| Chunk (upd : option update)
| Broken (e : exn).

(** The collaborators of a session: the engine made by [engine_factory],
    the polyglot reader, the Lichess client, the conversation and the
    deadline kept by the game object. They share one opaque state. *)
Class World `{Chess} : Type := {
  W : Type;
  engine_factory : W -> Board -> W * result unit;
  engine_pre_game : W -> Game -> W * result unit;
  engine_first_search : W -> Board -> Z -> W * result Move;
  engine_search : W -> Board -> Z -> Z -> Z -> Z -> W * result Move;
  open_reader : W -> string -> W * result unit;
  reader_choice : W -> Board -> W * result Move;
  reader_find : W -> Board -> Z -> W * result Move;
  li_make_move : W -> string -> Move -> W * result unit;
  li_abort : W -> string -> W * result unit;
  conversation_react : W -> string -> Game -> W * result unit;
  game_abort_in : W -> Z -> W;
  game_should_abort_now : W -> W * bool;
  (** Modelled from the spec: the Decision Engine Adapter's [shutdown()]
      ([engine.quit] of engine_wrapper, which is not in main.py), an
      operation for which the specification gives no failure. *)
  engine_quit : W -> W
}.

Section Driver.
Context {CH : Chess} {WD : World}.

(** The calls a session makes, in order. *)
Inductive call : Type :=
| EngineFactory (board : Board)
| PreGame (game : Game)
| FirstSearch (board : Board) (movetime : Z)
| Search (board : Board) (wtime btime winc binc : Z)
| EngineQuit
| OpenReader (book : string)
| ReaderChoice (board : Board)
| ReaderFind (board : Board) (min_weight : Z)
| MakeMove (gid : string) (move : Move)
| Abort (gid : string)
| React (text : string)
| AbortIn (seconds : Z)
| ShouldAbortNow
| PutLocalGameDone.   (* control_queue.put_nowait({"type": "local_game_done"}) *)

Record rt : Type := {
  world : W;
  calls : list call
}.

(** *** A state and exception monad *)

Definition M (A : Type) : Type := rt -> result A * rt.

Definition ret {A : Type} (a : A) : M A := fun s => (Returns a, s).

Definition raise {A : Type} (e : exn) : M A := fun s => (Raises e, s).

Definition bind {A B : Type} (m : M A) (k : A -> M B) : M B :=
  fun s =>
    match m s with
    | (Returns a, s') => k a s'
    | (Raises e, s') => (Raises e, s')
    end.

Definition lift {A : Type} (r : result A) : M A := fun s => (r, s).

(** A call that can raise. *)
Definition invoke {A : Type} (c : call) (f : W -> W * result A) : M A :=
  fun s =>
    let (w, r) := f (world s) in
    (r, {| world := w; calls := calls s ++ [c] |}).

(** A call that returns. *)
Definition perform (c : call) (f : W -> W) : M unit :=
  fun s => (Returns tt, {| world := f (world s); calls := calls s ++ [c] |}).

(** [try: body except (caught): pass finally: cleanup]. The handler of
    [play_game] only prints. An exception of the cleanup replaces the
    outcome of the body. *)
Definition try_except_finally (body : M unit) (caught : exn -> bool)
    (cleanup : M unit) : M unit :=
  fun s =>
    let (r, s1) := body s in
    let outcome :=
      match r with
      | Returns _ => Returns tt
      | Raises e => if caught e then Returns tt else Raises e
      end in
    match cleanup s1 with
    | (Returns _, s2) => (outcome, s2)
    | (Raises e, s2) => (Raises e, s2)
    end.

(** [try: body except: pass], then [None]: the shape of [get_book_move]. *)
Definition try_or_none {A : Type} (body : M A) : M (option A) :=
  fun s =>
    match body s with
    | (Returns a, s') => (Returns (Some a), s')
    | (Raises _, s') => (Returns None, s')
    end.

End Driver.

Declare Scope session_scope.
Delimit Scope session_scope with session.
Notation "x <- m ;; k" := (bind m (fun x => k))
  (at level 61, m at next level, right associativity) : session_scope.
Notation "m ;; k" := (bind m (fun _ => k))
  (at level 61, right associativity) : session_scope.
Local Open Scope session_scope.

Section Functions.
Context {CH : Chess} {WD : World}.

(** *** Turn determination *)

Definition is_white_to_move (game : Game) (moves : list string) : bool :=
  Nat.eqb (Nat.modulo (List.length moves) 2) (if white_starts game then 0 else 1)%nat.

Definition is_engine_move (game : Game) (moves : list string) : bool :=
  let is_w := is_white game && is_white_to_move game moves in
  let is_b := negb (is_white game) && negb (is_white_to_move game moves) in
  is_w || is_b.

(** *** The board *)

Definition push (board : Board) (m : Move) : Board :=
  {| board_setup := board_setup board;
     move_stack := move_stack board ++ [m] |}.

Definition update_board (board : Board) (move : string) : result Board :=
  match from_uci move with
  | Some uci_move => Returns (push board uci_move)
  | None => Raises ValueError
  end.

(** The [for move in moves] loop of [setup_board]. *)
Fixpoint replay (board : Board) (moves : list string) : result Board :=
  match moves with
  | [] => Returns board
  | move :: rest =>
      match update_board board move with
      | Returns board' => replay board' rest
      | Raises e => Raises e
      end
  end.

Definition setup_board (game : Game) : result Board :=
  let start :=
    if String.eqb (lower (variant_name game)) "chess960" then
      if valid_fen (initial_fen game)
      then Returns (Chess960 (initial_fen game)) else Raises ValueError
    else if String.eqb (variant_name game) "From Position" then
      if valid_fen (initial_fen game)
      then Returns (FromPosition (initial_fen game)) else Raises ValueError
    else
      if find_variant (variant_name game)
      then Returns (Variant (variant_name game)) else Raises ValueError in
  match start with
  | Returns st => replay {| board_setup := st; move_stack := [] |}
                         (split (state_moves game))
  | Raises e => Raises e
  end.

(** *** The lookup advisor *)

Definition get_book_move (board : Board) (engine_cfg : EngineConfig)
  : M (option Move) :=
  try_or_none
    (invoke (OpenReader (polyglot_book engine_cfg))
            (fun w => open_reader w (polyglot_book engine_cfg)) ;;
     if polyglot_random engine_cfg then
       invoke (ReaderChoice board) (fun w => reader_choice w board)
     else
       invoke (ReaderFind board (polyglot_min_weight engine_cfg))
              (fun w => reader_find w board (polyglot_min_weight engine_cfg))).

(** *** The first move *)

Definition play_first_move (game : Game) (board : Board) : M Board :=
  let moves := split (state_moves game) in
  if is_engine_move game moves then
    best_move <- invoke (FirstSearch board 2000)
                        (fun w => engine_first_search w board 2000) ;;
    invoke (MakeMove (game_id game) best_move)
           (fun w => li_make_move w (game_id game) best_move) ;;
    ret board
  else ret board.

Definition play_first_book_move (game : Game) (board : Board)
    (config : EngineConfig) : M Board :=
  let moves := split (state_moves game) in
  if is_engine_move game moves then
    book_move <- get_book_move board config ;;
    match book_move with
    | Some m =>
        invoke (MakeMove (game_id game) m)
               (fun w => li_make_move w (game_id game) m) ;;
        ret board
    | None => play_first_move game board
    end
  else ret board.

(** *** The update loop *)

(** The [ping] branch. *)
Definition on_ping (game : Game) : M unit :=
  should_abort <- invoke ShouldAbortNow
                    (fun w => let (w', b) := game_should_abort_now w in
                              (w', Returns b)) ;;
  if should_abort && Nat.ltb (String.length (state_moves game)) 6 then
    invoke (Abort (game_id game)) (fun w => li_abort w (game_id game))
  else ret tt.

(** The [gameState] branch. *)
Definition on_game_state (engine_cfg : EngineConfig) (game : Game)
    (board : Board) (upd_moves : string) (wtime btime winc binc : Z)
  : M (Game * Board) :=
  let game := set_state game upd_moves in
  let moves := split upd_moves in
  match last_item moves with
  | None => raise IndexError
  | Some last_move =>
      board <- lift (update_board board last_move) ;;
      if is_engine_move game moves then
        book_move <-
          (if polyglot engine_cfg
              && (Z.of_nat (List.length moves)
                  <=? polyglot_max_depth engine_cfg * 2 - 1)
           then get_book_move board engine_cfg
           else ret None) ;;
        best_move <-
          match book_move with
          | Some m => ret m
          | None =>
              invoke (Search board wtime btime winc binc)
                     (fun w => engine_search w board wtime btime winc binc)
          end ;;
        invoke (MakeMove (game_id game) best_move)
               (fun w => li_make_move w (game_id game) best_move) ;;
        perform (AbortIn 20) (fun w => game_abort_in w 20) ;;
        ret (game, board)
      else ret (game, board)
  end.

(** The gameState branch from [engine.search] on: what is left of it
    when the book gives nothing or is not asked. *)
Definition answer_with_search (game : Game) (board : Board)
    (wtime btime winc binc : Z) : M (Game * Board) :=
  best_move <- invoke (Search board wtime btime winc binc)
                 (fun w => engine_search w board wtime btime winc binc) ;;
  invoke (MakeMove (game_id game) best_move)
         (fun w => li_make_move w (game_id game) best_move) ;;
  perform (AbortIn 20) (fun w => game_abort_in w 20) ;;
  ret (game, board).

(** The body of [for binary_chunk in updates]. *)
Definition on_update (engine_cfg : EngineConfig) (game : Game)
    (board : Board) (chunk : option update) : M (Game * Board) :=
  match chunk with
  | Some (ChatLine text) =>
      invoke (React text) (fun w => conversation_react w text game) ;;
      ret (game, board)
  | Some (GameState moves wtime btime winc binc) =>
      on_game_state engine_cfg game board moves wtime btime winc binc
  | Some (GameFull _) => ret (game, board)
  | Some (OtherUpdate type) =>
      if String.eqb type "ping"
      then on_ping game ;; ret (game, board)
      else ret (game, board)
  | None => on_ping game ;; ret (game, board)
  end.

Fixpoint update_loop (engine_cfg : EngineConfig) (game : Game)
    (board : Board) (updates : list line) : M unit :=
  match updates with
  | [] => ret tt
  | Broken e :: _ => raise e
  | Chunk chunk :: rest =>
      gb <- on_update engine_cfg game board chunk ;;
      update_loop engine_cfg (fst gb) (snd gb) rest
  end.

(** *** [play_game] *)

(** The exceptions of the [except] clause. *)
Definition caught (e : exn) : bool :=
  match e with
  | RemoteDisconnected | ConnectionError | ProtocolError | HTTPError _ => true
  | _ => false
  end.

(** [model.Game(json.loads(next(updates)...), ...)]: the first message has
    to be the full game. *)
Definition first_message (chunk : option update) : result Game :=
  match chunk with
  | Some (GameFull game) => Returns game
  | None => Raises ValueError
  | Some _ => Raises KeyError
  end.

(** Everything before the [try]: the stream is opened and read once, the
    board and the engine are set up and the first move is played. *)
Definition first_phase (engine_cfg : EngineConfig) (stream : list line)
  : M (Game * Board * list line) :=
  match stream with
  | [] => raise StopIteration
  | Broken e :: _ => raise e
  | Chunk chunk :: updates =>
      game <- lift (first_message chunk) ;;
      board <- lift (setup_board game) ;;
      invoke (EngineFactory board) (fun w => engine_factory w board) ;;
      invoke (PreGame game) (fun w => engine_pre_game w game) ;;
      board <- (if polyglot engine_cfg
                then play_first_book_move game board engine_cfg
                else play_first_move game board) ;;
      ret (game, board, updates)
  end.

(** The [finally] clause. The control queue is [manager.Queue()] without a
    size, so [put_nowait] returns. *)
Definition cleanup : M unit :=
  perform EngineQuit engine_quit ;;
  perform PutLocalGameDone (fun w => w).

Definition play_game (engine_cfg : EngineConfig) (stream : list line)
  : M unit :=
  gbu <- first_phase engine_cfg stream ;;
  let '(game, board, updates) := gbu in
  try_except_finally (update_loop engine_cfg game board updates)
                     caught cleanup.

(** *** Reading the trace *)

Definition is_quit (c : call) : bool :=
  match c with EngineQuit => true | _ => false end.

Definition is_done (c : call) : bool :=
  match c with PutLocalGameDone => true | _ => false end.

Definition is_abort (c : call) : bool :=
  match c with Abort _ => true | _ => false end.

Definition is_lookup (c : call) : bool :=
  match c with
  | OpenReader _ | ReaderChoice _ | ReaderFind _ _ => true
  | _ => false
  end.

Definition is_search (c : call) : bool :=
  match c with Search _ _ _ _ _ | FirstSearch _ _ => true | _ => false end.

Definition count (p : call -> bool) (l : list call) : nat :=
  List.length (filter p l).

(** A computation that makes no call of the kind [p]. *)
Definition keeps (p : call -> bool) {A : Type} (m : M A) : Prop :=
  forall s, filter p (calls (snd (m s))) = filter p (calls s).

(** The query [get_book_move] sends to the opened reader. *)
Definition book_query (engine_cfg : EngineConfig) (board : Board) (w : W)
  : W * result Move :=
  if polyglot_random engine_cfg then reader_choice w board
  else reader_find w board (polyglot_min_weight engine_cfg).

(** Opening the book raises, or the book opens and the query raises. *)
Definition lookup_fails (engine_cfg : EngineConfig) (board : Board) (w : W)
  : Prop :=
  match open_reader w (polyglot_book engine_cfg) with
  | (_, Raises _) => True
  | (w1, Returns _) =>
      match book_query engine_cfg board w1 with
      | (_, Raises _) => True
      | (_, Returns _) => False
      end
  end.

(** The number of plies in [game.state["moves"]], as [play_game] counts
    them elsewhere ([len(moves)] after [split()]). *)
Definition plies (game : Game) : nat :=
  List.length (split (state_moves game)).



Definition is_make_move (c : call) : bool :=
  match c with MakeMove _ _ => true | _ => false end.

(** Every call a computation adds to the trace, when run from [s],
    satisfies [P]. *)
Definition emits_at (P : call -> Prop) {A : Type} (m : M A) (s : rt) : Prop :=
  exists added, calls (snd (m s)) = calls s ++ added /\ Forall P added.

Definition emits (P : call -> Prop) {A : Type} (m : M A) : Prop :=
  forall s, emits_at P m s.

(** A stream in step with the game: every gameState update brings the
    moves known so far and one more. *)
Fixpoint in_step (known : list string) (updates : list line) : Prop :=
  match updates with
  | [] => True
  | Chunk (Some (GameState moves _ _ _ _)) :: rest =>
      (exists move, split moves = known ++ [move]) /\
      in_step (split moves) rest
  | _ :: rest => in_step known rest
  end.

(** A question to the engine or to the book that is asked about the
    position of the full move list of one of the updates, with the clock
    figures of that update; the loop has no other questions. *)
Definition asks_about (start : Board) (updates : list line) (c : call)
  : Prop :=
  match c with
  | Search board wtime btime winc binc =>
      exists moves,
        In (Chunk (Some (GameState moves wtime btime winc binc))) updates /\
        replay start (split moves) = Returns board
  | ReaderChoice board | ReaderFind board _ =>
      exists moves wtime btime winc binc,
        In (Chunk (Some (GameState moves wtime btime winc binc))) updates /\
        replay start (split moves) = Returns board
  | FirstSearch _ _ | EngineFactory _ | PreGame _ => False
  | _ => True
  end.

(** The board before any move of the game. *)
Definition unmoved (board : Board) : Board :=
  {| board_setup := board_setup board; move_stack := [] |}.

End Functions.

End Session.

(** ** Concrete collaborators *)

(** Small collaborators on which the definitions above can be run. *)
Module Scenario.
Import Admission Session.

(** A challenge as far as the controller looks at it. *)
Record challenge : Type := {
  cid : string;
  cscore : Z;
  csupported : bool
}.

#[export] Instance challenges : ChallengeModel := {|
  Challenge := challenge;
  chlng_id := cid;
  score := cscore;
  is_supported := fun c _ => csupported c
|}.

(** A server that answers the requests it gets with a prepared list of
    replies, and with success once the list is used up. *)
Definition reply (w : list (result unit)) (_ : string)
  : list (result unit) * result unit :=
  match w with
  | [] => ([], Returns tt)
  | r :: w' => (w', r)
  end.

#[export] Instance scripted : LichessClient := {|
  Li := list (result unit);
  decline_challenge := reply;
  accept_challenge := reply
|}.

Definition server (replies : list (result unit)) : Li := replies.

Definition one_game : Config :=
  {| max_concurrent_games := 1; sort_challenges_by := None |}.

Definition one_game_first : Config :=
  {| max_concurrent_games := 1; sort_challenges_by := Some "first"%string |}.

Definition chal_X : Challenge :=
  {| cid := "X"; cscore := 1; csupported := true |}.

Definition chal_A : Challenge :=
  {| cid := "A"; cscore := 5; csupported := true |}.

Definition chal_B : Challenge :=
  {| cid := "B"; cscore := 10; csupported := true |}.

Definition chal_U : Challenge :=
  {| cid := "U"; cscore := 7; csupported := false |}.

(** One game is accepted and started, then A (score 5) and B (score 10)
    arrive in that order while the only slot is taken, then the game
    ends and one more challenge is popped. *)
Definition a_then_b : list (@event challenges) :=
  [ChallengeEvent chal_X; GameStart "g"%string;
   ChallengeEvent chal_A; ChallengeEvent chal_B; LocalGameDone].

(** X is accepted, U is declined, the game of X starts, A and B wait
    for the slot, and get it one after the other. *)
Definition busy_day : list (@event challenges) :=
  [ChallengeEvent chal_X; ChallengeEvent chal_U; GameStart "g"%string;
   ChallengeEvent chal_A; OtherEvent "ping"%string; ChallengeEvent chal_B;
   LocalGameDone; GameStart "h"%string; LocalGameDone].

(** Moves are kept as their UCI text. *)
#[export] Instance uci_text : Chess := {|
  Move := string;
  from_uci := fun s =>
    if ((4 <=? String.length s) && (String.length s <=? 5))%nat
    then Some s else None;
  valid_fen := fun _ => true;
  find_variant := fun _ => true
|}.

Definition uci (text : string) : Move := text.

(** A world that never changes: what the book, the server and the clock
    answer is fixed in advance. *)
Record answers : Type := {
  book_opens : bool;
  book_entry : result string;
  move_reply : result unit;
  deadline_passed : bool
}.

#[export] Instance fixed_answers : World := {|
  W := answers;
  engine_factory := fun w _ => (w, Returns tt);
  engine_pre_game := fun w _ => (w, Returns tt);
  engine_first_search := fun w _ _ => (w, Returns "e2e4"%string);
  engine_search := fun w _ _ _ _ _ => (w, Returns "g1f3"%string);
  open_reader := fun w _ =>
    (w, if book_opens w then Returns tt
        else Raises (OtherException "FileNotFoundError"));
  reader_choice := fun w _ => (w, book_entry w);
  reader_find := fun w _ _ => (w, book_entry w);
  li_make_move := fun w _ _ => (w, move_reply w);
  li_abort := fun w _ => (w, Returns tt);
  conversation_react := fun w _ _ => (w, Returns tt);
  game_abort_in := fun w _ => w;
  game_should_abort_now := fun w => (w, deadline_passed w);
  engine_quit := fun w => w
|}.

Definition calm : answers :=
  {| book_opens := true; book_entry := Returns "d2d4"%string;
     move_reply := Returns tt; deadline_passed := false |}.

Definition idle : answers :=
  {| book_opens := true; book_entry := Returns "d2d4"%string;
     move_reply := Returns tt; deadline_passed := true |}.

Definition no_book : answers :=
  {| book_opens := false; book_entry := Returns "d2d4"%string;
     move_reply := Returns tt; deadline_passed := false |}.

Definition empty_book : answers :=
  {| book_opens := true; book_entry := Raises IndexError;
     move_reply := Returns tt; deadline_passed := false |}.

Definition server_error : answers :=
  {| book_opens := true; book_entry := Returns "d2d4"%string;
     move_reply := Raises (HTTPError 500); deadline_passed := false |}.

Definition fresh (w : answers) : rt := {| world := w; calls := [] |}.

Definition as_white : Game :=
  {| game_id := "g1"; is_white := true; white_starts := true;
     variant_name := "standard"; initial_fen := "startpos";
     state_moves := "" |}.

Definition as_black : Game :=
  {| game_id := "g1"; is_white := false; white_starts := true;
     variant_name := "standard"; initial_fen := "startpos";
     state_moves := "" |}.

(** White in a game set up from a position in which Black is to move. *)
Definition as_white_black_starts : Game :=
  {| game_id := "g2"; is_white := true; white_starts := false;
     variant_name := "From Position";
     initial_fen := "4k3/8/8/8/8/8/8/4K3 b - - 0 1";
     state_moves := "" |}.

Definition with_book : EngineConfig :=
  {| polyglot := true; polyglot_book := "book.bin"; polyglot_random := false;
     polyglot_min_weight := 1; polyglot_max_depth := 2 |}.

Definition without_book : EngineConfig :=
  {| polyglot := false; polyglot_book := "book.bin"; polyglot_random := false;
     polyglot_min_weight := 1; polyglot_max_depth := 2 |}.

Definition standard_board : Board :=
  {| board_setup := Variant "standard"; move_stack := [] |}.

(** The bot plays Black; after three plies the connection drops. *)
Definition three_moves_then_disconnect : list line :=
  [Chunk (Some (GameFull as_black));
   Chunk (Some (GameState "e2e4" 60000 60000 0 0));
   Chunk (Some (GameState "e2e4 e7e5" 60000 59000 0 0));
   Chunk (Some (GameState "e2e4 e7e5 g1f3" 58000 59000 0 0));
   Broken RemoteDisconnected].

(** The bot plays Black and answers the first move; a keep-alive line
    follows, then an update without moves. *)
Definition blank_update_later : list line :=
  [Chunk (Some (GameFull as_black));
   Chunk (Some (GameState "e2e4" 60000 60000 0 0));
   Chunk None;
   Chunk (Some (GameState "" 60000 59000 0 0));
   Chunk (Some (GameState "e2e4 e7e5 g1f3" 58000 59000 0 0))].

Definition after_three_plies : Game :=
  {| game_id := "g1"; is_white := false; white_starts := true;
     variant_name := "standard"; initial_fen := "startpos";
     state_moves := "e2e4 e7e5 g1f3" |}.

Definition after_two_plies : Game :=
  {| game_id := "g1"; is_white := true; white_starts := true;
     variant_name := "standard"; initial_fen := "startpos";
     state_moves := "e2e4 e7e5" |}.


End Scenario.

(** * Properties *)

(** ** The stable sort *)

Section ListSortFacts.
Context {A : Type}.
Variable key : A -> Z.

Lemma insert_by_head (x : A) (l : list A) :
  Forall (fun y => key x <= key y) l -> insert_by key x l = x :: l.
Proof.
  destruct l as [|y l]; simpl; [reflexivity|].
  intros H. inversion H; subst.
  destruct (Z.leb_spec (key x) (key y)); [reflexivity | lia].
Qed.

Lemma insert_last_head (x : A) (l : list A) :
  Forall (fun y => key x < key y) l -> insert_last key x l = x :: l.
Proof.
  destruct l as [|y l]; simpl; [reflexivity|].
  intros H. inversion H; subst.
  destruct (Z.ltb_spec (key x) (key y)); [reflexivity | lia].
Qed.

Lemma insert_last_In (x y : A) (l : list A) :
  In y (insert_last key x l) -> y = x \/ In y l.
Proof.
  induction l as [|z l IH]; simpl.
  - intros [->|[]]. now left.
  - destruct (key x <? key z); simpl.
    + intros [->|[->|H]]; auto.
    + intros [->|H]; auto. destruct (IH H); auto.
Qed.

Lemma insert_last_sorted (x : A) (l : list A) :
  key_sorted key l -> key_sorted key (insert_last key x l).
Proof.
  unfold key_sorted. induction 1 as [|y l Hs IH Hy]; simpl.
  - repeat constructor.
  - destruct (Z.ltb_spec (key x) (key y)).
    + constructor; [constructor; assumption|].
      constructor; [lia|].
      rewrite Forall_forall in *. intros z Hz. specialize (Hy z Hz). lia.
    + constructor; [assumption|].
      rewrite Forall_forall in *. intros z Hz.
      destruct (insert_last_In _ _ _ Hz) as [->|Hz']; [lia | auto].
Qed.

(** Sorting a sorted queue with one more element at its end puts that
    element behind all keys that are not larger: the sort is stable. *)
Lemma list_sort_snoc (x : A) (l : list A) :
  key_sorted key l -> list_sort key (l ++ [x]) = insert_last key x l.
Proof.
  unfold key_sorted. induction 1 as [|y l Hs IH Hy]; simpl; [reflexivity|].
  rewrite IH. destruct (Z.ltb_spec (key x) (key y)).
  - rewrite insert_last_head.
    + simpl. destruct (Z.leb_spec (key y) (key x)); [lia|].
      now rewrite insert_by_head.
    + rewrite Forall_forall in *. intros z Hz. specialize (Hy z Hz). lia.
  - apply insert_by_head.
    rewrite Forall_forall in *. intros z Hz.
    destruct (insert_last_In _ _ _ Hz) as [->|Hz']; [lia | auto].
Qed.

Lemma filter_none (f : A -> bool) (l : list A) :
  (forall z, In z l -> f z = false) -> filter f l = [].
Proof.
  induction l as [|y l IH]; simpl; [reflexivity|].
  intros H. rewrite (H y (or_introl eq_refl)). apply IH. auto.
Qed.

Lemma insert_last_filter (k : Z) (x : A) (l : list A) :
  key_sorted key l ->
  filter (fun a => key a =? k) (insert_last key x l)
  = filter (fun a => key a =? k) l ++ filter (fun a => key a =? k) [x].
Proof.
  unfold key_sorted. induction 1 as [|y l Hs IH Hy]; [reflexivity|].
  cbn [insert_last]. destruct (Z.ltb_spec (key x) (key y)).
  - change (x :: y :: l) with ([x] ++ y :: l). rewrite filter_app.
    destruct (Z.eqb_spec (key x) k) as [E|E].
    + assert (F : filter (fun a => key a =? k) (y :: l) = []).
      { apply filter_none. intros z [->|Hz]; apply Z.eqb_neq.
        - lia.
        - rewrite Forall_forall in Hy. specialize (Hy z Hz). lia. }
      rewrite F. now rewrite app_nil_r.
    + assert (F : filter (fun a => key a =? k) [x] = []).
      { apply filter_none. intros z [->|[]]. now apply Z.eqb_neq. }
      rewrite F. now rewrite app_nil_r.
  - cbn [filter]. rewrite IH. now destruct (key y =? k).
Qed.

Lemma key_sorted_app_r (l1 l2 : list A) :
  key_sorted key (l1 ++ l2) -> key_sorted key l2.
Proof.
  unfold key_sorted. induction l1 as [|x l1 IH]; simpl; [auto|].
  intros H. inversion H; auto.
Qed.

Lemma insert_by_perm (x : A) (l : list A) :
  Permutation (insert_by key x l) (x :: l).
Proof.
  induction l as [|y l IH]; simpl; [reflexivity|].
  destruct (key x <=? key y); [reflexivity|].
  rewrite IH. apply perm_swap.
Qed.

Lemma list_sort_perm (l : list A) : Permutation (list_sort key l) l.
Proof.
  induction l as [|x l IH]; simpl; [reflexivity|].
  rewrite insert_by_perm. now constructor.
Qed.

End ListSortFacts.

(** ** The Admission Controller *)

Module AdmissionFacts.
Import Admission.

Section ControllerFacts.
Context {CM : ChallengeModel} {LC : LichessClient}.
Variable config : Config.

Lemma popped_app (l1 l2 : list action) :
  popped (l1 ++ l2) = popped l1 ++ popped l2.
Proof.
  induction l1 as [|a l1 IH]; simpl; [reflexivity|].
  destruct a; simpl; now rewrite IH.
Qed.

Lemma popped_accepts (p : list Challenge) : popped (map Accept p) = p.
Proof. induction p; simpl; congruence. Qed.

Lemma eligible_app (evs1 evs2 : list event) :
  eligible config (evs1 ++ evs2) = eligible config evs1 ++ eligible config evs2.
Proof.
  induction evs1 as [|ev evs1 IH]; simpl; [reflexivity|].
  destruct ev; auto. destruct (is_supported chlng config); simpl; congruence.
Qed.

(** What a drain that comes back has done: it popped a prefix [p] of the
    queue, one accept request per popped challenge, and it left the
    running games alone. *)
Lemma drain_spec (q : list Challenge) :
  forall busy queued w lg st',
    drain config q busy queued w lg = Returns st' ->
    exists p,
      q = p ++ challenge_queue st' /\
      log st' = lg ++ map Accept p /\
      busy_processes st' = busy /\
      queued <= queued_processes st' /\
      (queued + busy <= max_games config ->
       queued_processes st' + busy <= max_games config) /\
      (challenge_queue st' = [] \/
       max_games config <= queued_processes st' + busy).
Proof.
  induction q as [|c q IH]; intros busy queued w lg st'; simpl.
  - intros [= <-]. exists []. simpl. rewrite app_nil_r.
    repeat split; auto; lia.
  - destruct (Z.ltb_spec (queued + busy) (max_games config)) as [Hlt|Hge].
    + destruct (accept_challenge w (chlng_id c)) as [w' r].
      assert (Hrec : forall queued1,
                 queued <= queued1 ->
                 queued1 + busy <= max_games config ->
                 drain config q busy queued1 w' (lg ++ [Accept c]) = Returns st' ->
                 exists p,
                   c :: q = p ++ challenge_queue st' /\
                   log st' = lg ++ map Accept p /\
                   busy_processes st' = busy /\
                   queued <= queued_processes st' /\
                   (queued + busy <= max_games config ->
                    queued_processes st' + busy <= max_games config) /\
                   (challenge_queue st' = [] \/
                    max_games config <= queued_processes st' + busy)).
      { intros queued1 H1 H2 Hd.
        destruct (IH _ _ _ _ _ Hd) as (p & Hq & Hl & Hb & Hle & Hcap & Hfull).
        exists (c :: p). simpl. rewrite Hq at 1. rewrite Hl, <- app_assoc.
        repeat split; auto; lia. }
      destruct r as [[]|e].
      * apply Hrec; lia.
      * destruct e; try discriminate.
        destruct (status_code =? 404); [|discriminate].
        apply Hrec; lia.
    + intros [= <-]. exists []. simpl. rewrite app_nil_r.
      repeat split; auto; lia.
Qed.

(** What handling an event that comes back has done to the queue and to
    the pops. *)
Lemma handle_event_queue (st st' : state) (ev : event) :
  handle_event config st ev = Returns st' ->
  popped (log st') = popped (log st) /\
  challenge_queue st' =
    match eligible config [ev] with
    | [] => challenge_queue st
    | c :: _ =>
        if sorts_by_score config
        then list_sort sort_key (challenge_queue st ++ [c])
        else challenge_queue st ++ [c]
    end.
Proof.
  destruct ev as [|c|gid|t]; simpl.
  - intros [= <-]. auto.
  - destruct (is_supported c config).
    + intros [= <-]. auto.
    + destruct (decline_challenge (li st) (chlng_id c)) as [w r].
      assert (popped (log st ++ [Decline c]) = popped (log st))
        by (rewrite popped_app; simpl; apply app_nil_r).
      destruct r as [[]|e].
      * intros [= <-]. auto.
      * destruct e; try discriminate.
        destruct (status_code =? 404); [|discriminate].
        intros [= <-]. auto.
  - intros [= <-]. simpl. split; [|reflexivity].
    rewrite !popped_app. destruct (queued_processes st <=? 0); simpl;
      now rewrite app_nil_r.
  - intros [= <-]. auto.
Qed.

Lemma handle_event_counters (st st' : state) (ev : event) :
  handle_event config st ev = Returns st' ->
  match ev with
  | LocalGameDone =>
      busy_processes st' = busy_processes st - 1 /\
      queued_processes st' = queued_processes st
  | GameStart _ =>
      busy_processes st' = busy_processes st + 1 /\
      queued_processes st' =
        (if queued_processes st <=? 0 then queued_processes st
         else queued_processes st - 1)
  | _ =>
      busy_processes st' = busy_processes st /\
      queued_processes st' = queued_processes st
  end.
Proof.
  destruct ev as [|c|gid|t]; simpl.
  - intros [= <-]. auto.
  - destruct (is_supported c config).
    + intros [= <-]. auto.
    + destruct (decline_challenge (li st) (chlng_id c)) as [w r].
      destruct r as [[]|e].
      * intros [= <-]. auto.
      * destruct e; try discriminate.
        destruct (status_code =? 404); [|discriminate].
        intros [= <-]. auto.
  - intros [= <-]. auto.
  - intros [= <-]. auto.
Qed.

Lemma run_app (st : state) (evs1 evs2 : list event) :
  run config st (evs1 ++ evs2) =
  match run config st evs1 with
  | Returns st1 => run config st1 evs2
  | Raises e => Raises e
  end.
Proof.
  revert st. induction evs1 as [|ev evs1 IH]; intros st; simpl; [reflexivity|].
  destruct (control_step config st ev); auto.
Qed.





(** C6 (amended). After each event handled by the loop, drain included,
    the pending queue is empty or the capacity is used up:
    [queued_processes + busy_processes >= max_concurrent_games]. The
    length of the queue itself has no bound. *)
Theorem queue_left_only_at_capacity :
  forall (w : Li) (evs : list event) (ev : event) (st : state),
    start config w (evs ++ [ev]) = Returns st ->
    challenge_queue st = [] \/
    max_games config <= queued_processes st + busy_processes st.
Proof.
  intros w evs ev st. unfold start. rewrite run_app.
  destruct (run config (init w) evs) as [st1|e]; [|discriminate].
  simpl. unfold control_step, drain_queue.
  destruct (handle_event config st1 ev) as [st2|e]; [|discriminate].
  destruct (drain config (challenge_queue st2) (busy_processes st2)
              (queued_processes st2) (li st2) (log st2)) as [st3|e] eqn:Hd;
    [|discriminate].
  intros [= <-].
  destruct (drain_spec _ _ _ _ _ _ Hd) as (p & _ & _ & Hb & _ & _ & Hfull).
  now rewrite Hb.
Qed.

Lemma drains_to_drain (st st' : state) :
  drains_to config st st' ->
  drain_queue config st = drain_queue config st'.
Proof.
  induction 1 as [st | st st' c rest w' Hq Hcap Hacc _ IH
                     | st st' c rest w' Hq Hcap Hacc _ IH];
    [reflexivity| |];
    rewrite <- IH; unfold drain_queue; rewrite Hq; simpl;
    apply Z.ltb_lt in Hcap; rewrite Hcap, Hacc; reflexivity.
Qed.

(** C7. A decline or accept request that fails with HTTP status 404 is
    swallowed and the loop continues: after the decline the round goes
    on to the drain with the queue and the counters as they were; after
    an accept, at whatever point of the drain of whatever round, the
    popped challenge is dropped, [queued_processes] is not incremented
    and the round goes on draining the rest of the queue. With any other
    status the HTTP error leaves the control loop, whatever events would
    follow. *)
Theorem http_404_swallowed_other_status_fatal :
  (forall (st : state) (chlng : Challenge) (status : Z) (w' : Li),
      is_supported chlng config = false ->
      decline_challenge (li st) (chlng_id chlng)
        = (w', Raises (HTTPError status)) ->
      (status = 404 ->
       control_step config st (ChallengeEvent chlng) =
       drain_queue config
         {| challenge_queue := challenge_queue st;
            busy_processes := busy_processes st;
            queued_processes := queued_processes st;
            li := w'; log := log st ++ [Decline chlng] |}) /\
      (status <> 404 ->
       forall rest,
         run config st (ChallengeEvent chlng :: rest)
           = Raises (HTTPError status))) /\
  (forall (st0 st1 st : state) (ev : event) (chlng : Challenge)
          (q : list Challenge) (status : Z) (w' : Li),
      handle_event config st0 ev = Returns st1 ->
      drains_to config st1 st ->
      challenge_queue st = chlng :: q ->
      queued_processes st + busy_processes st < max_games config ->
      accept_challenge (li st) (chlng_id chlng)
        = (w', Raises (HTTPError status)) ->
      (status = 404 ->
       control_step config st0 ev =
       drain_queue config
         {| challenge_queue := q;
            busy_processes := busy_processes st;
            queued_processes := queued_processes st;
            li := w'; log := log st ++ [Accept chlng] |}) /\
      (status <> 404 ->
       control_step config st0 ev = Raises (HTTPError status) /\
       forall rest,
         run config st0 (ev :: rest) = Raises (HTTPError status))).
Proof.
  split.
  - intros st chlng status w' Hsup Hdec. split.
    + intros ->. unfold control_step. simpl. rewrite Hsup, Hdec. reflexivity.
    + intros Hne rest. simpl. unfold control_step. simpl.
      rewrite Hsup, Hdec.
      destruct (Z.eqb_spec status 404); [contradiction | reflexivity].
  - intros st0 st1 st ev chlng q status w' Hh Hdrain Hq Hcap Hacc.
    assert (Hlt : (queued_processes st + busy_processes st <? max_games config)
                  = true) by now apply Z.ltb_lt.
    assert (Hstep : control_step config st0 ev = drain_queue config st).
    { unfold control_step. rewrite Hh. now apply drains_to_drain. }
    split.
    + intros ->. rewrite Hstep. unfold drain_queue. rewrite Hq. simpl.
      rewrite Hlt, Hacc. reflexivity.
    + intros Hne.
      assert (Hd : control_step config st0 ev = Raises (HTTPError status)).
      { rewrite Hstep. unfold drain_queue. rewrite Hq. simpl.
        rewrite Hlt, Hacc.
        destruct (Z.eqb_spec status 404); [contradiction | reflexivity]. }
      split; [exact Hd|]. intros rest. simpl. now rewrite Hd.
Qed.

Lemma with_score_key (s : Z) (l : list Challenge) :
  with_score s l = filter (fun c => sort_key c =? - s) l.
Proof.
  unfold with_score, sort_key. apply filter_ext. intros c.
  destruct (Z.eqb_spec (score c) s), (Z.eqb_spec (- score c) (- s));
    auto; lia.
Qed.

Lemma with_score_app (s : Z) (l1 l2 : list Challenge) :
  with_score s (l1 ++ l2) = with_score s l1 ++ with_score s l2.
Proof. apply filter_app. Qed.

Lemma key_sorted_descending (l : list Challenge) :
  key_sorted sort_key l ->
  StronglySorted (fun a b => score b <= score a) l.
Proof.
  unfold key_sorted, sort_key. induction 1 as [|c l Hs IH Hc]; constructor.
  - assumption.
  - rewrite Forall_forall in *. intros z Hz. specialize (Hc z Hz). lia.
Qed.

Lemma eligible_one (ev : event) :
  eligible config [ev] = [] \/ exists c, eligible config [ev] = [c].
Proof.
  destruct ev; simpl; auto. destruct (is_supported chlng config); eauto.
Qed.

(** The queue discipline in score mode, one round. *)
Lemma control_step_by_score (st st' : state) (ev : event)
    (arrived : list Challenge) :
  sorts_by_score config = true ->
  control_step config st ev = Returns st' ->
  key_sorted sort_key (challenge_queue st) /\
  (forall s, with_score s (popped (log st))
             ++ with_score s (challenge_queue st) = with_score s arrived) ->
  key_sorted sort_key (challenge_queue st') /\
  (forall s, with_score s (popped (log st'))
             ++ with_score s (challenge_queue st')
             = with_score s (arrived ++ eligible config [ev])).
Proof.
  intros Hmode. unfold control_step, drain_queue.
  destruct (handle_event config st ev) as [st1|e] eqn:Hh; [|discriminate].
  intros Hd [Hsorted Hstable].
  destruct (handle_event_queue _ _ _ Hh) as [Hp Hq]. rewrite Hmode in Hq.
  destruct (drain_spec _ _ _ _ _ _ Hd) as (p & Hq1 & Hl & _).
  assert (Hpop : popped (log st') = popped (log st) ++ p).
  { rewrite Hl, popped_app, popped_accepts. congruence. }
  assert (H1 : key_sorted sort_key (challenge_queue st1) /\
               forall s, with_score s (challenge_queue st1)
                         = with_score s (challenge_queue st)
                           ++ with_score s (eligible config [ev])).
  { destruct (eligible_one ev) as [E|[c E]]; rewrite E in *.
    - rewrite Hq. split; [assumption|]. intros s. now rewrite app_nil_r.
    - rewrite Hq, list_sort_snoc by assumption. split.
      + now apply insert_last_sorted.
      + intros s. rewrite !with_score_key. now apply insert_last_filter. }
  destruct H1 as [Hs1 Hf1]. split.
  - rewrite Hq1 in Hs1. exact (key_sorted_app_r _ _ _ Hs1).
  - intros s. rewrite Hpop, !with_score_app, <- app_assoc.
    rewrite <- (with_score_app s p), <- Hq1, Hf1, app_assoc.
    now rewrite Hstable.
Qed.

(** The queue discipline in "first" mode, one round. *)
Lemma control_step_first_come (st st' : state) (ev : event)
    (arrived : list Challenge) :
  sorts_by_score config = false ->
  control_step config st ev = Returns st' ->
  popped (log st) ++ challenge_queue st = arrived ->
  popped (log st') ++ challenge_queue st' = arrived ++ eligible config [ev].
Proof.
  intros Hmode. unfold control_step, drain_queue.
  destruct (handle_event config st ev) as [st1|e] eqn:Hh; [|discriminate].
  intros Hd Hfifo.
  destruct (handle_event_queue _ _ _ Hh) as [Hp Hq]. rewrite Hmode in Hq.
  destruct (drain_spec _ _ _ _ _ _ Hd) as (p & Hq1 & Hl & _).
  rewrite Hl, popped_app, popped_accepts, Hp, <- app_assoc, <- Hq1, Hq.
  destruct (eligible_one ev) as [E|[c E]]; rewrite E.
  - now rewrite app_nil_r.
  - now rewrite app_assoc, Hfifo.
Qed.

Lemma run_by_score (evs : list event) :
  sorts_by_score config = true ->
  forall st st' arrived,
    run config st evs = Returns st' ->
    key_sorted sort_key (challenge_queue st) /\
    (forall s, with_score s (popped (log st))
               ++ with_score s (challenge_queue st) = with_score s arrived) ->
    key_sorted sort_key (challenge_queue st') /\
    (forall s, with_score s (popped (log st'))
               ++ with_score s (challenge_queue st')
               = with_score s (arrived ++ eligible config evs)).
Proof.
  intros Hmode. induction evs as [|ev evs IH]; intros st st' arrived;
    cbn [run].
  - intros [= <-]. simpl. now rewrite app_nil_r.
  - destruct (control_step config st ev) as [st1|e] eqn:Hs; [|discriminate].
    intros Hrun Hinv.
    change (ev :: evs) with ([ev] ++ evs).
    rewrite eligible_app, app_assoc.
    apply (IH st1); [assumption|].
    exact (control_step_by_score _ _ _ _ Hmode Hs Hinv).
Qed.

Lemma run_first_come (evs : list event) :
  sorts_by_score config = false ->
  forall st st' arrived,
    run config st evs = Returns st' ->
    popped (log st) ++ challenge_queue st = arrived ->
    popped (log st') ++ challenge_queue st' = arrived ++ eligible config evs.
Proof.
  intros Hmode. induction evs as [|ev evs IH]; intros st st' arrived;
    cbn [run].
  - intros [= <-]. simpl. now rewrite app_nil_r.
  - destruct (control_step config st ev) as [st1|e] eqn:Hs; [|discriminate].
    intros Hrun Hinv.
    change (ev :: evs) with ([ev] ++ evs).
    rewrite eligible_app, app_assoc.
    apply (IH st1); [assumption|].
    exact (control_step_first_come _ _ _ _ Hmode Hs Hinv).
Qed.

(** C5. After any sequence of events the loop has handled: in score mode
    the pending queue is in descending score order and, score by score,
    the challenges already popped followed by those still queued are the
    eligible arrivals of that score in arrival order (ties keep arrival
    order); in "first" mode the popped challenges followed by the queue
    are the eligible arrivals in arrival order, whatever their scores. A
    drain with capacity left pops the head of the queue first and then
    goes down the queue. *)
Theorem queue_order :
  (forall (w : Li) (evs : list event) (st : state),
      start config w evs = Returns st ->
      (sort_challenges_by config <> Some "first"%string ->
       StronglySorted (fun a b => score b <= score a) (challenge_queue st) /\
       forall s, with_score s (popped (log st))
                 ++ with_score s (challenge_queue st)
                 = with_score s (eligible config evs)) /\
      (sort_challenges_by config = Some "first"%string ->
       popped (log st) ++ challenge_queue st = eligible config evs)) /\
  (forall (st st' : state) (c : Challenge) (q : list Challenge),
      challenge_queue st = c :: q ->
      queued_processes st + busy_processes st < max_games config ->
      drain_queue config st = Returns st' ->
      exists p, log st' = log st ++ Accept c :: map Accept p /\
                q = p ++ challenge_queue st').
Proof.
  split.
  - intros w evs st Hrun. split.
    + intros Hmode.
      assert (Hs : sorts_by_score config = true).
      { unfold sorts_by_score.
        destruct (sort_challenges_by config) as [m|]; [|reflexivity].
        destruct (String.eqb_spec m "first"); [congruence | reflexivity]. }
      destruct (run_by_score evs Hs (init w) st [] Hrun) as [H1 H2].
      * split; [constructor | reflexivity].
      * split; [now apply key_sorted_descending | exact H2].
    + intros Hmode.
      assert (Hs : sorts_by_score config = false).
      { unfold sorts_by_score. now rewrite Hmode. }
      exact (run_first_come evs Hs (init w) st [] Hrun eq_refl).
  - intros st st' c q Hq Hcap Hd.
    destruct (drain_spec _ _ _ _ _ _ Hd) as (p & Hp & Hl & _).
    rewrite Hq in Hp. destruct p as [|c' p].
    + simpl in Hp. exfalso. unfold drain_queue in Hd. rewrite Hq in Hd. simpl in Hd.
      apply Z.ltb_lt in Hcap. rewrite Hcap in Hd.
      destruct (accept_challenge (li st) (chlng_id c)) as [w' r].
      assert (Hshrink : forall queued lg,
                 drain config q (busy_processes st) queued w' lg = Returns st' ->
                 False).
      { intros queued lg Hd'.
        destruct (drain_spec _ _ _ _ _ _ Hd') as (p2 & Hp2 & _).
        rewrite <- Hp in Hp2. apply (f_equal (@List.length _)) in Hp2.
        rewrite length_app in Hp2. simpl in Hp2. lia. }
      destruct r as [[]|e].
      * eapply Hshrink; eauto.
      * destruct e; try discriminate.
        destruct (status_code =? 404); [|discriminate].
        eapply Hshrink; eauto.
    + simpl in Hp. injection Hp as <- Hp. exists p. auto.
Qed.

(** *** Bookkeeping of the loop *)

Lemma run_invariant (I : state -> Prop) :
  (forall st st' ev,
      control_step config st ev = Returns st' -> I st -> I st') ->
  forall evs st0 st,
    I st0 -> run config st0 evs = Returns st -> I st.
Proof.
  intros Hstep. induction evs as [|ev evs IH]; intros st0 st Hinv; simpl.
  - now intros [= <-].
  - destruct (control_step config st0 ev) as [st1|e] eqn:Hs; [|discriminate].
    apply IH. exact (Hstep _ _ _ Hs Hinv).
Qed.

(** X1. Whatever events arrive, in whatever order, [queued_processes] is
    never negative after an event has been handled: the decrement on
    gameStart is guarded. *)
Theorem queued_processes_never_negative :
  forall (w : Li) (evs : list event) (st : state),
    start config w evs = Returns st ->
    0 <= queued_processes st.
Proof.
  intros w evs st.
  apply (run_invariant (fun st => 0 <= queued_processes st)).
  - intros st0 st1 ev. unfold control_step, drain_queue.
    destruct (handle_event config st0 ev) as [st2|e] eqn:Hh; [|discriminate].
    intros Hd Hq. apply handle_event_counters in Hh.
    destruct (drain_spec _ _ _ _ _ _ Hd) as (p & _ & _ & _ & Hle & _).
    destruct ev as [|c|gid|t]; destruct Hh as [H1 H2]; try lia.
    destruct (Z.leb_spec (queued_processes st0) 0); lia.
  - simpl. lia.
Qed.

Lemma launched_app (l1 l2 : list action) :
  launched (l1 ++ l2) = launched l1 ++ launched l2.
Proof.
  induction l1 as [|a l1 IH]; simpl; [reflexivity|].
  destruct a; simpl; now rewrite IH.
Qed.

Lemma declined_app (l1 l2 : list action) :
  declined (l1 ++ l2) = declined l1 ++ declined l2.
Proof.
  induction l1 as [|a l1 IH]; simpl; [reflexivity|].
  destruct a; simpl; now rewrite IH.
Qed.

Lemma accepts_only (p : list Challenge) :
  launched (map Accept p) = [] /\ declined (map Accept p) = [].
Proof. induction p; simpl; auto. Qed.

(** What one round adds to the games launched, to the challenges
    declined and to [busy_processes]. *)
Lemma control_step_books (st st' : state) (ev : event) :
  control_step config st ev = Returns st' ->
  launched (log st') = launched (log st) ++ game_starts [ev] /\
  declined (log st') = declined (log st) ++ ineligible config [ev] /\
  busy_processes st' =
    busy_processes st + Z.of_nat (List.length (game_starts [ev]))
    - Z.of_nat (games_done [ev]).
Proof.
  unfold control_step, drain_queue.
  destruct (handle_event config st ev) as [st1|e] eqn:Hh; [|discriminate].
  intros Hd.
  destruct (drain_spec _ _ _ _ _ _ Hd) as (p & _ & Hl & Hb & _).
  destruct (accepts_only p) as [Hla Hda].
  rewrite Hl, launched_app, declined_app, Hla, Hda, !app_nil_r, Hb.
  clear Hd Hl Hb st'.
  destruct ev as [|c|gid|t]; simpl in *.
  - injection Hh as <-. simpl. rewrite !app_nil_r. repeat split. lia.
  - destruct (is_supported c config).
    + injection Hh as <-. simpl. rewrite !app_nil_r. repeat split. lia.
    + destruct (decline_challenge (li st) (chlng_id c)) as [w r].
      assert (Hlog : forall st1 : state,
                 log st1 = log st ++ [Decline c] ->
                 busy_processes st1 = busy_processes st ->
                 launched (log st1) = launched (log st) ++ [] /\
                 declined (log st1) = declined (log st) ++ [c] /\
                 busy_processes st1 = busy_processes st + 0 - 0).
      { intros st2 Hl Hb. rewrite Hl, launched_app, declined_app, Hb. simpl.
        repeat split. lia. }
      destruct r as [[]|e].
      * injection Hh as <-. now apply Hlog.
      * destruct e; try discriminate.
        destruct (status_code =? 404); [|discriminate].
        injection Hh as <-. now apply Hlog.
  - injection Hh as <-. simpl.
    rewrite !launched_app, !declined_app.
    destruct (queued_processes st <=? 0); simpl; rewrite ?app_nil_r;
      repeat split; lia.
  - injection Hh as <-. simpl. rewrite !app_nil_r. repeat split. lia.
Qed.

Lemma game_starts_cons (ev : event) (evs : list event) :
  game_starts (ev :: evs) = game_starts [ev] ++ game_starts evs.
Proof. destruct ev; reflexivity. Qed.

Lemma games_done_cons (ev : event) (evs : list event) :
  games_done (ev :: evs) = (games_done [ev] + games_done evs)%nat.
Proof. destruct ev; reflexivity. Qed.

Lemma ineligible_cons (ev : event) (evs : list event) :
  ineligible config (ev :: evs)
  = ineligible config [ev] ++ ineligible config evs.
Proof.
  destruct ev; try reflexivity. simpl.
  destruct (is_supported chlng config); reflexivity.
Qed.

Lemma run_books (evs : list event) :
  forall st st',
    run config st evs = Returns st' ->
    launched (log st') = launched (log st) ++ game_starts evs /\
    declined (log st') = declined (log st) ++ ineligible config evs /\
    busy_processes st' =
      busy_processes st + Z.of_nat (List.length (game_starts evs))
      - Z.of_nat (games_done evs).
Proof.
  induction evs as [|ev evs IH]; intros st st'; cbn [run].
  - intros [= <-]. simpl. rewrite !app_nil_r. repeat split. lia.
  - destruct (control_step config st ev) as [st1|e] eqn:Hs; [|discriminate].
    intros Hrun.
    destruct (control_step_books _ _ _ Hs) as (H1 & H2 & H3).
    destruct (IH _ _ Hrun) as (H4 & H5 & H6).
    rewrite game_starts_cons, games_done_cons, ineligible_cons.
    rewrite H4, H5, H6, H1, H2, H3, <- !app_assoc, length_app.
    repeat split. lia.
Qed.

(** X2. Every gameStart event hands exactly one [play_game] to the pool,
    for the game of the event and in the order of the events, whether a
    process was queued for it or not; and [busy_processes] is the number
    of gameStart events minus the number of local_game_done events seen
    so far. *)
Theorem one_session_per_game_start :
  forall (w : Li) (evs : list event) (st : state),
    start config w evs = Returns st ->
    launched (log st) = game_starts evs /\
    busy_processes st =
      Z.of_nat (List.length (game_starts evs)) - Z.of_nat (games_done evs).
Proof.
  intros w evs st Hrun.
  destruct (run_books evs _ _ Hrun) as (H1 & _ & H3).
  simpl in *. split; [exact H1 | lia].
Qed.

(** X4. The challenges the loop has asked the server to decline are
    exactly the unsupported challenges that arrived, each once and in
    arrival order; a supported challenge is never declined. *)
Theorem declines_exactly_the_unsupported :
  forall (w : Li) (evs : list event) (st : state),
    start config w evs = Returns st ->
    declined (log st) = ineligible config evs /\
    Forall (fun c => is_supported c config = false) (declined (log st)).
Proof.
  intros w evs st Hrun.
  destruct (run_books evs _ _ Hrun) as (_ & H2 & _).
  simpl in H2. split; [exact H2|]. rewrite H2.
  clear. induction evs as [|ev evs IH]; simpl; [constructor|].
  destruct ev; auto.
  destruct (is_supported chlng config) eqn:E; auto.
Qed.

(** X3. No supported challenge is lost or taken twice: at any time the
    challenges popped for an accept request together with those still in
    the queue are the supported challenges that arrived, each as often as
    it arrived, in score mode as in "first" mode. *)
Theorem no_challenge_lost_or_duplicated :
  forall (w : Li) (evs : list event) (st : state),
    start config w evs = Returns st ->
    Permutation (popped (log st) ++ challenge_queue st)
                (eligible config evs).
Proof.
  intros w evs st. unfold start.
  change (eligible config evs)
    with ((popped (log (init w)) ++ challenge_queue (init w))
          ++ eligible config evs).
  generalize (init w). induction evs as [|ev evs IH]; intros st0; cbn [run].
  - intros [= <-]. simpl. now rewrite app_nil_r.
  - destruct (control_step config st0 ev) as [st1|e] eqn:Hs; [|discriminate].
    intros Hrun. rewrite (IH _ Hrun).
    change (ev :: evs) with ([ev] ++ evs).
    rewrite eligible_app, app_assoc. apply Permutation_app_tail.
    unfold control_step, drain_queue in Hs.
    destruct (handle_event config st0 ev) as [st2|e] eqn:Hh; [|discriminate].
    destruct (handle_event_queue _ _ _ Hh) as [Hp Hq].
    destruct (drain_spec _ _ _ _ _ _ Hs) as (p & Hq1 & Hl & _).
    rewrite Hl, popped_app, popped_accepts, Hp, <- !app_assoc, <- Hq1, Hq.
    apply Permutation_app_head.
    destruct (eligible_one ev) as [E|[c E]]; rewrite E.
    + now rewrite app_nil_r.
    + destruct (sorts_by_score config); [apply list_sort_perm | reflexivity].
Qed.

(** A state the drain has nothing to do in. *)
Lemma drain_settled (st : state) :
  challenge_queue st = [] \/
  max_games config <= queued_processes st + busy_processes st ->
  drain_queue config st = Returns st.
Proof.
  unfold drain_queue. destruct st as [q busy queued w lg]. simpl.
  intros [-> | Hfull]; [reflexivity|].
  destruct q as [|c q]; simpl; [reflexivity|].
  destruct (Z.ltb_spec (queued + busy) (max_games config)); [lia|reflexivity].
Qed.

Lemma control_step_settles (st st' : state) (ev : event) :
  control_step config st ev = Returns st' ->
  challenge_queue st' = [] \/
  max_games config <= queued_processes st' + busy_processes st'.
Proof.
  unfold control_step, drain_queue.
  destruct (handle_event config st ev) as [st1|e]; [|discriminate].
  intros Hd.
  destruct (drain_spec _ _ _ _ _ _ Hd) as (p & _ & _ & Hb & _ & _ & Hfull).
  now rewrite Hb.
Qed.

(** X5. Events of a type the loop has no branch for (the pings of the
    relay, chat lines and the like) change nothing: the loop ends in the
    same state, with the same requests sent, as on the sequence without
    them. *)
Theorem other_events_change_nothing :
  forall (w : Li) (evs : list event),
    start config w evs
    = start config w (filter (fun ev => negb (is_other ev)) evs).
Proof.
  intros w evs. unfold start.
  assert (Hinit : challenge_queue (init w) = [] \/
                  max_games config
                  <= queued_processes (init w) + busy_processes (init w))
    by now left.
  revert Hinit. generalize (init w).
  induction evs as [|ev evs IH]; intros st Hst; [reflexivity|].
  destruct ev as [|c|gid|t]; cbn [run filter is_other negb].
  - destruct (control_step config st LocalGameDone) as [st1|e] eqn:Hs;
      [|reflexivity].
    apply IH. exact (control_step_settles _ _ _ Hs).
  - destruct (control_step config st (ChallengeEvent c)) as [st1|e] eqn:Hs;
      [|reflexivity].
    apply IH. exact (control_step_settles _ _ _ Hs).
  - destruct (control_step config st (GameStart gid)) as [st1|e] eqn:Hs;
      [|reflexivity].
    apply IH. exact (control_step_settles _ _ _ Hs).
  - unfold control_step. cbn [handle_event].
    rewrite (drain_settled st Hst). now apply IH.
Qed.

(** X6. The relay puts one event on the queue per line read, in the
    order of the lines and behind what the queue already holds: a ping
    for an empty line, the decoded event otherwise. When a line cannot
    be decoded the events of the lines before it are on the queue and
    the relay ends with the exception of that line. *)
Theorem relay_one_event_per_line :
  forall (loads : string -> result event) (lines : list string)
         (control_queue : list event),
    exists added : list event,
      snd (watch_control_stream loads lines control_queue)
      = control_queue ++ added /\
      Forall2 (fun evnt ev =>
                 match evnt with
                 | EmptyString => ev = ping
                 | _ => loads evnt = Returns ev
                 end)
              (firstn (List.length added) lines) added /\
      match fst (watch_control_stream loads lines control_queue) with
      | Returns _ => List.length added = List.length lines
      | Raises e =>
          exists evnt,
            nth_error lines (List.length added) = Some evnt /\
            evnt <> EmptyString /\ loads evnt = Raises e
      end.
Proof.
  intros loads lines.
  induction lines as [|evnt lines IH]; intros control_queue.
  - exists []. simpl. rewrite app_nil_r. repeat split. constructor.
  - destruct evnt as [|a evnt'].
    + cbn [watch_control_stream].
      destruct (IH (control_queue ++ [ping])) as (added & Hq & Hall & Hend).
      exists (ping :: added). rewrite Hq, <- app_assoc. simpl.
      split; [reflexivity|]. split; [now constructor|].
      destruct (fst (watch_control_stream loads lines
                       (control_queue ++ [ping]))); [lia | exact Hend].
    + cbn [watch_control_stream].
      destruct (loads (String a evnt')) as [ev|e] eqn:Hload.
      * destruct (IH (control_queue ++ [ev])) as (added & Hq & Hall & Hend).
        exists (ev :: added). rewrite Hq, <- app_assoc. simpl.
        split; [reflexivity|]. split; [now constructor|].
        destruct (fst (watch_control_stream loads lines
                         (control_queue ++ [ev]))); [lia | exact Hend].
      * exists []. simpl. rewrite app_nil_r.
        split; [reflexivity|]. split; [constructor|].
        exists (String a evnt'). repeat split; [discriminate | exact Hload].
Qed.

End ControllerFacts.

(** *** Runs of the loop *)

Import Scenario.


(** A local_game_done for a game that was never started takes the sum
    below zero. *)
Example game_done_without_game_goes_negative :
  exists st : state,
    start one_game (server []) [LocalGameDone] = Returns st /\
    queued_processes st + busy_processes st = -1.
Proof. eexists. split; vm_compute; reflexivity. Qed.


(** C6, as stated, fails: with room for one game and no game running,
    three eligible challenges leave two of them in the queue, more than
    [max_concurrent_games - busy_processes = 1]. *)
Lemma queue_grows_beyond_free_capacity :
  exists st : state,
    start one_game (server []) [ChallengeEvent chal_X; ChallengeEvent chal_A;
                       ChallengeEvent chal_B] = Returns st /\
    challenge_queue st = [chal_B; chal_A] /\
    max_games one_game - busy_processes st = 1 /\
    ~ (Z.of_nat (List.length (challenge_queue st))
       <= max_games one_game - busy_processes st).
Proof.
  eexists. split; [vm_compute; reflexivity|]. repeat split.
  vm_compute. intros H. now apply H.
Qed.

Lemma queue_left_only_at_capacity_witness :
  exists st : state,
    start one_game (server []) ([ChallengeEvent chal_X; ChallengeEvent chal_A]
                       ++ [ChallengeEvent chal_B]) = Returns st /\
    (challenge_queue st = [] \/
     max_games one_game <= queued_processes st + busy_processes st).
Proof.
  eexists. split; [vm_compute; reflexivity|].
  apply (queue_left_only_at_capacity one_game (server []))
    with (evs := [ChallengeEvent chal_X; ChallengeEvent chal_A])
         (ev := ChallengeEvent chal_B).
  vm_compute; reflexivity.
Defined.

Lemma http_404_swallowed_other_status_fatal_witness :
  control_step one_game (init (server [Raises (HTTPError 404)]))
               (ChallengeEvent chal_U)
  = Returns {| challenge_queue := []; busy_processes := 0;
               queued_processes := 0; li := server [];
               log := [Decline chal_U] |}
  /\ run one_game (init (server [Raises (HTTPError 500)]))
         [ChallengeEvent chal_U; ChallengeEvent chal_A]
     = Raises (HTTPError 500)
  /\ control_step one_game (init (server [Raises (HTTPError 404)]))
                  (ChallengeEvent chal_A)
     = Returns {| challenge_queue := []; busy_processes := 0;
                  queued_processes := 0; li := server [];
                  log := [Accept chal_A] |}
  /\ start one_game
           (server [Returns tt; Raises (HTTPError 404);
                    Raises (HTTPError 500)])
           a_then_b
     = Raises (HTTPError 500).
Proof.
  destruct (http_404_swallowed_other_status_fatal one_game) as [Hdec Hacc].
  split; [|split; [|split]].
  - rewrite (proj1 (Hdec (init (server [Raises (HTTPError 404)])) chal_U 404
                         (server []) eq_refl eq_refl) eq_refl).
    reflexivity.
  - apply (proj2 (Hdec (init (server [Raises (HTTPError 500)])) chal_U 500
                       (server []) eq_refl eq_refl)).
    discriminate.
  - eassert (Hh : handle_event one_game
                    (init (server [Raises (HTTPError 404)]))
                    (ChallengeEvent chal_A) = Returns _)
      by (vm_compute; reflexivity).
    rewrite (proj1 (Hacc _ _ _ _ chal_A [] 404 (server []) Hh
                         (drains_here _ _) eq_refl eq_refl eq_refl) eq_refl).
    vm_compute; reflexivity.
  - unfold start.
    change a_then_b with (firstn 4 a_then_b ++ [LocalGameDone]).
    rewrite run_app.
    eassert (Hrun : run one_game
                      (init (server [Returns tt; Raises (HTTPError 404);
                                     Raises (HTTPError 500)]))
                      (firstn 4 a_then_b) = Returns _)
      by (vm_compute; reflexivity).
    rewrite Hrun.
    match type of Hrun with
    | _ = Returns ?st0 =>
        eassert (Hh : handle_event one_game st0 LocalGameDone = Returns _)
          by (vm_compute; reflexivity)
    end.
    match type of Hh with
    | _ = Returns ?st1 =>
        eassert (Hdrain : drains_to one_game st1 _)
          by (eapply (drains_missing one_game _ _ chal_B [chal_A]
                        (server [Raises (HTTPError 500)]));
              [reflexivity | vm_compute; reflexivity | reflexivity
               | apply drains_here])
    end.
    refine (proj2 (proj2 (Hacc _ _ _ _ chal_A [] 500 (server []) Hh
                               Hdrain eq_refl eq_refl eq_refl)
                         _) []).
    discriminate.
Defined.

(** The scenario of the specification: A (score 5) then B (score 10)
    arrive while the only slot is taken. In "first" mode A is popped
    first; in score mode B is. *)
Example first_mode_pops_in_arrival_order :
  exists st : state,
    start one_game_first (server []) a_then_b = Returns st /\
    popped (log st) = [chal_X; chal_A] /\ challenge_queue st = [chal_B].
Proof.
  eexists. split; [vm_compute; reflexivity|]. split; reflexivity.
Qed.

Example score_mode_pops_best_first :
  exists st : state,
    start one_game (server []) a_then_b = Returns st /\
    popped (log st) = [chal_X; chal_B] /\ challenge_queue st = [chal_A].
Proof.
  eexists. split; [vm_compute; reflexivity|]. split; reflexivity.
Qed.

Lemma queue_order_witness :
  exists st : state,
    start one_game_first (server []) a_then_b = Returns st /\
    popped (log st) ++ challenge_queue st = [chal_X; chal_A; chal_B] /\
    exists st' : state,
      start one_game (server []) a_then_b = Returns st' /\
      StronglySorted (fun a b => score b <= score a) (challenge_queue st').
Proof.
  eexists. split; [vm_compute; reflexivity|]. split.
  - refine (proj2 (proj1 (queue_order one_game_first)
                         (server []) a_then_b _ _) _).
    + vm_compute; reflexivity.
    + reflexivity.
  - eexists. split; [vm_compute; reflexivity|].
    refine (proj1 (proj1 (proj1 (queue_order one_game)
                                (server []) a_then_b _ _) _)).
    + vm_compute; reflexivity.
    + discriminate.
Defined.

Lemma queued_processes_never_negative_witness :
  exists st : state,
    start one_game (server []) busy_day = Returns st /\
    0 <= queued_processes st.
Proof.
  eexists. split; [vm_compute; reflexivity|].
  refine (queued_processes_never_negative one_game (server []) busy_day _ _).
  vm_compute; reflexivity.
Defined.

Lemma one_session_per_game_start_witness :
  exists st : state,
    start one_game (server []) busy_day = Returns st /\
    launched (log st) = ["g"; "h"]%string /\
    busy_processes st = 0.
Proof.
  eexists. split; [vm_compute; reflexivity|].
  refine (one_session_per_game_start one_game (server []) busy_day _ _).
  vm_compute; reflexivity.
Defined.

Lemma declines_exactly_the_unsupported_witness :
  exists st : state,
    start one_game (server []) busy_day = Returns st /\
    declined (log st) = [chal_U].
Proof.
  eexists. split; [vm_compute; reflexivity|].
  refine (proj1 (declines_exactly_the_unsupported one_game (server [])
                   busy_day _ _)).
  vm_compute; reflexivity.
Defined.

Lemma no_challenge_lost_or_duplicated_witness :
  exists st : state,
    start one_game (server []) busy_day = Returns st /\
    Permutation (popped (log st) ++ challenge_queue st)
                [chal_X; chal_A; chal_B].
Proof.
  eexists. split; [vm_compute; reflexivity|].
  refine (no_challenge_lost_or_duplicated one_game (server []) busy_day _ _).
  vm_compute; reflexivity.
Defined.

End AdmissionFacts.

(** ** The Session Driver *)

Module SessionFacts.
Import Session.
Local Open Scope session_scope.

Section DriverFacts.
Context {CH : Chess} {WD : World}.

(** *** The monad and the trace *)

Lemma count_app (p : call -> bool) (l1 l2 : list call) :
  count p (l1 ++ l2) = (count p l1 + count p l2)%nat.
Proof. unfold count. now rewrite filter_app, length_app. Qed.

Lemma keeps_ret (p : call -> bool) {A : Type} (a : A) : keeps p (ret a).
Proof. intros s. reflexivity. Qed.

Lemma keeps_raise (p : call -> bool) {A : Type} (e : exn) :
  keeps p (@raise _ _ A e).
Proof. intros s. reflexivity. Qed.

Lemma keeps_lift (p : call -> bool) {A : Type} (r : result A) :
  keeps p (lift r).
Proof. intros s. reflexivity. Qed.

Lemma keeps_bind (p : call -> bool) {A B : Type} (m : M A) (k : A -> M B) :
  keeps p m -> (forall a, keeps p (k a)) -> keeps p (bind m k).
Proof.
  intros Hm Hk s. unfold bind. specialize (Hm s).
  destruct (m s) as [[a|e] s1]; simpl in *.
  - now rewrite (Hk a s1).
  - exact Hm.
Qed.

Lemma keeps_invoke (p : call -> bool) {A : Type} (c : call)
    (f : W -> W * result A) :
  p c = false -> keeps p (invoke c f).
Proof.
  intros Hc s. unfold invoke. destruct (f (world s)) as [w r]. simpl.
  rewrite filter_app. simpl. rewrite Hc. apply app_nil_r.
Qed.

Lemma keeps_perform (p : call -> bool) (c : call) (f : W -> W) :
  p c = false -> keeps p (perform c f).
Proof.
  intros Hc s. unfold perform. simpl.
  rewrite filter_app. simpl. rewrite Hc. apply app_nil_r.
Qed.

Lemma keeps_try_or_none (p : call -> bool) {A : Type} (m : M A) :
  keeps p m -> keeps p (try_or_none m).
Proof.
  intros Hm s. unfold try_or_none. specialize (Hm s).
  destruct (m s) as [[a|e] s1]; exact Hm.
Qed.

Lemma keeps_count (p : call -> bool) {A : Type} (m : M A) (s : rt) :
  keeps p m -> count p (calls (snd (m s))) = count p (calls s).
Proof. intros H. unfold count. now rewrite H. Qed.

(** *** Splitting the moves string *)

Example split_moves :
  split "e2e4 e7e5  g1f3 " = ["e2e4"; "e7e5"; "g1f3"]%string /\
  split "" = [] /\ last_item (split "e2e4 e7e5") = Some "e7e5"%string.
Proof. repeat split. Qed.

Lemma string_length_app (s1 s2 : string) :
  String.length (s1 ++ s2) = (String.length s1 + String.length s2)%nat.
Proof. induction s1 as [|a s1 IH]; simpl; congruence. Qed.

(** The words of a string and the gaps between them fit in the string. *)
Lemma split_from_length (s : string) :
  forall cur : string,
    (list_sum (map String.length (split_from cur s))
     + List.length (split_from cur s)
     <= String.length cur + String.length s + 1)%nat.
Proof.
  induction s as [|a s IH]; intros cur; simpl.
  - destruct cur; simpl; lia.
  - destruct (is_space a).
    + specialize (IH EmptyString). destruct cur; simpl in *; lia.
    + specialize (IH (cur ++ String a EmptyString)%string).
      rewrite string_length_app in IH. simpl in IH. lia.
Qed.

(** With moves of four characters or more, as in UCI notation, a moves
    string of two plies or more has at least six characters: the length
    test of the ping branch fails from the second ply on. *)
Lemma two_plies_make_a_long_moves_string (game : Game) :
  Forall (fun move => (4 <= String.length move)%nat)
         (split (state_moves game)) ->
  (2 <= plies game)%nat ->
  Nat.ltb (String.length (state_moves game)) 6 = false.
Proof.
  unfold plies, split. intros Hlong Hplies.
  pose proof (split_from_length (state_moves game) EmptyString) as Hfit.
  assert (Hsum : forall l,
             Forall (fun move => (4 <= String.length move)%nat) l ->
             (4 * List.length l <= list_sum (map String.length l))%nat).
  { induction 1; simpl in *; lia. }
  specialize (Hsum _ Hlong). simpl in Hfit.
  apply Nat.ltb_ge. lia.
Qed.

(** *** Turn determination *)

Lemma is_white_to_move_parity (game : Game) (moves : list string) :
  is_white_to_move game moves
  = Bool.eqb (white_starts game) (Nat.even (List.length moves)).
Proof.
  unfold is_white_to_move.
  rewrite <- (Nat.negb_odd (List.length moves)).
  rewrite <- Nat.bit0_mod, Nat.bit0_odd.
  destruct (white_starts game), (Nat.odd (List.length moves)); reflexivity.
Qed.

(** C9 (amended). Whether it is the engine's move is a pure function of
    the colour of the session ([is_white]), of the side that moves first
    in the game ([white_starts]) and of the parity of the ply count:
    games and move lists that agree on these three get the same answer,
    which is [is_white = (white_starts = even ply count)]; evaluating it
    again on the same move list gives the same result. *)
Theorem turn_depends_on_colour_first_mover_and_parity :
  forall (game1 game2 : Game) (moves1 moves2 : list string),
    is_white game1 = is_white game2 ->
    white_starts game1 = white_starts game2 ->
    Nat.even (List.length moves1) = Nat.even (List.length moves2) ->
    is_engine_move game1 moves1 = is_engine_move game2 moves2 /\
    is_engine_move game1 moves1
    = Bool.eqb (is_white game1)
               (Bool.eqb (white_starts game1)
                         (Nat.even (List.length moves1))).
Proof.
  intros game1 game2 moves1 moves2 Hw Hs Hp.
  unfold is_engine_move. rewrite !is_white_to_move_parity, Hw, Hs, Hp.
  split; [reflexivity|].
  destruct (is_white game2), (white_starts game2),
    (Nat.even (List.length moves2)); reflexivity.
Qed.

Lemma is_engine_move_set_state (game : Game) (s : string)
    (moves : list string) :
  is_engine_move (set_state game s) moves = is_engine_move game moves.
Proof. reflexivity. Qed.

(** *** The ping branch *)

(** The ping branch in terms of the moves string: on a ping (an empty
    line or a message of type "ping") the driver asks
    [game.should_abort_now()] once, and sends an abort request exactly
    when the answer is yes and the moves string of the stored game state
    ([game.state["moves"]]) has fewer than 6 characters; nothing else is
    done. *)
Theorem ping_aborts_on_deadline_and_short_moves_string :
  forall (engine_cfg : EngineConfig) (game : Game) (board : Board)
         (chunk : option update) (s : rt),
    chunk = None \/ chunk = Some (OtherUpdate "ping") ->
    calls (snd (on_update engine_cfg game board chunk s))
    = calls s ++ ShouldAbortNow ::
        (if snd (game_should_abort_now (world s))
            && Nat.ltb (String.length (state_moves game)) 6
         then [Abort (game_id game)] else []).
Proof.
  intros engine_cfg game board chunk s Hchunk.
  assert (H : on_update engine_cfg game board chunk
              = (on_ping game ;; ret (game, board))).
  { destruct Hchunk as [-> | ->]; reflexivity. }
  rewrite H. unfold on_ping, bind, invoke, ret. simpl.
  destruct (game_should_abort_now (world s)) as [w' b]. simpl.
  destruct (b && Nat.ltb (String.length (state_moves game)) 6); simpl.
  - destruct (li_abort w' (game_id game)) as [w'' [[]|e]]; simpl;
      now rewrite <- app_assoc.
  - reflexivity.
Qed.

(** *** The gameState branch *)

Ltac keeps_side :=
  first
    [ reflexivity
    | match goal with
      | Hp : forall c, ?p c = true -> _ |- ?p ?c = false =>
          let E := fresh "E" in
          destruct (p c) eqn:E;
          [destruct (Hp _ E); discriminate | reflexivity]
      end ].

Ltac keeps_step :=
  match goal with
  | |- keeps _ (bind _ _) => apply keeps_bind; [|intros ?]
  | |- keeps _ (ret _) => apply keeps_ret
  | |- keeps _ (raise _) => apply keeps_raise
  | |- keeps _ (lift _) => apply keeps_lift
  | |- keeps _ (invoke _ _) => apply keeps_invoke; keeps_side
  | |- keeps _ (perform _ _) => apply keeps_perform; keeps_side
  | |- keeps _ (try_or_none _) => apply keeps_try_or_none
  | |- keeps _ (if ?b then _ else _) => destruct b
  | |- keeps _ (match ?x with _ => _ end) => destruct x
  end.

Lemma answer_with_search_calls (game : Game) (board : Board)
    (wtime btime winc binc : Z) (s : rt) :
  exists rest,
    calls (snd (answer_with_search game board wtime btime winc binc s))
    = calls s ++ Search board wtime btime winc binc :: rest /\
    filter is_lookup rest = [].
Proof.
  unfold answer_with_search, bind, invoke, perform, ret. simpl.
  destruct (engine_search (world s) board wtime btime winc binc)
    as [w1 [m|e]]; simpl.
  - destruct (li_make_move w1 (game_id game) m) as [w2 [[]|e]]; simpl.
    + eexists. rewrite <- !app_assoc. simpl. split; reflexivity.
    + eexists. rewrite <- !app_assoc. simpl. split; reflexivity.
  - eexists. split; reflexivity.
Qed.

Lemma answer_with_search_keeps_lookup (game : Game) (board : Board)
    (wtime btime winc binc : Z) :
  keeps is_lookup (answer_with_search game board wtime btime winc binc).
Proof. unfold answer_with_search. repeat keeps_step. Qed.

(** The gameState branch when the book is not consulted. *)
Lemma on_game_state_without_book (engine_cfg : EngineConfig) (game : Game)
    (board : Board) (moves : string) (wtime btime winc binc : Z) :
  polyglot engine_cfg
  && (Z.of_nat (List.length (split moves))
      <=? polyglot_max_depth engine_cfg * 2 - 1) = false ->
  on_game_state engine_cfg game board moves wtime btime winc binc
  = match last_item (split moves) with
    | None => raise IndexError
    | Some last_move =>
        match from_uci last_move with
        | None => raise ValueError
        | Some m =>
            if is_engine_move game (split moves)
            then answer_with_search (set_state game moves) (push board m)
                                    wtime btime winc binc
            else ret (set_state game moves, push board m)
        end
    end.
Proof.
  intros Hcond. unfold on_game_state. rewrite Hcond.
  destruct (last_item (split moves)) as [mv|]; [|reflexivity].
  unfold update_board. destruct (from_uci mv) as [m|]; [|reflexivity].
  rewrite is_engine_move_set_state.
  destruct (is_engine_move game (split moves)); reflexivity.
Qed.

(** C4. While a gameState update is handled, the polyglot book is
    consulted only if the book is enabled and the ply count is at most
    [2 * polyglot_max_depth - 1]. Once the ply count exceeds that bound
    no call to the book is made, and when it is the engine's move the
    next call is [engine.search] on the updated board with the four
    clock figures of the update, whatever the book holds. *)
Theorem book_consulted_only_within_depth :
  forall (engine_cfg : EngineConfig) (game : Game) (board : Board)
         (moves : string) (wtime btime winc binc : Z) (s : rt),
    let s' := snd (on_update engine_cfg game board
                     (Some (GameState moves wtime btime winc binc)) s) in
    (count is_lookup (calls s') <> count is_lookup (calls s) ->
     polyglot engine_cfg = true /\
     Z.of_nat (List.length (split moves))
     <= 2 * polyglot_max_depth engine_cfg - 1) /\
    (2 * polyglot_max_depth engine_cfg - 1
     < Z.of_nat (List.length (split moves)) ->
     count is_lookup (calls s') = count is_lookup (calls s) /\
     forall last_move m,
       last_item (split moves) = Some last_move ->
       from_uci last_move = Some m ->
       is_engine_move game (split moves) = true ->
       exists rest,
         calls s' = calls s ++ Search (push board m) wtime btime winc binc
                            :: rest /\
         count is_lookup rest = 0%nat).
Proof.
  intros engine_cfg game board moves wtime btime winc binc s.
  cbv zeta. cbn [on_update].
  assert (Hno : polyglot engine_cfg
                && (Z.of_nat (List.length (split moves))
                    <=? polyglot_max_depth engine_cfg * 2 - 1) = false ->
                keeps is_lookup
                  (on_game_state engine_cfg game board moves
                                 wtime btime winc binc)).
  { intros Hcond. rewrite (on_game_state_without_book _ _ _ _ _ _ _ _ Hcond).
    repeat keeps_step. apply answer_with_search_keeps_lookup. }
  split.
  - intros Hne.
    destruct (polyglot engine_cfg
              && (Z.of_nat (List.length (split moves))
                  <=? polyglot_max_depth engine_cfg * 2 - 1)) eqn:Hcond.
    + apply andb_true_iff in Hcond. destruct Hcond as [Hp Hd].
      apply Z.leb_le in Hd. split; [assumption | lia].
    + exfalso. apply Hne. apply keeps_count. now apply Hno.
  - intros Hdeep.
    assert (Hcond : polyglot engine_cfg
                    && (Z.of_nat (List.length (split moves))
                        <=? polyglot_max_depth engine_cfg * 2 - 1) = false).
    { apply andb_false_iff. right. apply Z.leb_gt. lia. }
    split.
    + apply keeps_count. now apply Hno.
    + intros mv m Hlast Huci Hturn.
      rewrite (on_game_state_without_book _ _ _ _ _ _ _ _ Hcond).
      rewrite Hlast, Huci, Hturn.
      destruct (answer_with_search_calls (set_state game moves)
                  (push board m) wtime btime winc binc s) as (rest & Hc & Hl).
      exists rest. split; [exact Hc|]. unfold count. now rewrite Hl.
Qed.

(** *** The lookup advisor and its callers *)

Lemma get_book_move_run (board : Board) (engine_cfg : EngineConfig) (s : rt) :
  get_book_move board engine_cfg s
  = let (w1, r1) := open_reader (world s) (polyglot_book engine_cfg) in
    let opened := calls s ++ [OpenReader (polyglot_book engine_cfg)] in
    match r1 with
    | Raises _ => (Returns None, {| world := w1; calls := opened |})
    | Returns _ =>
        let (w2, r2) := book_query engine_cfg board w1 in
        let asked :=
          opened ++ [if polyglot_random engine_cfg then ReaderChoice board
                     else ReaderFind board (polyglot_min_weight engine_cfg)] in
        match r2 with
        | Returns m => (Returns (Some m), {| world := w2; calls := asked |})
        | Raises _ => (Returns None, {| world := w2; calls := asked |})
        end
    end.
Proof.
  unfold get_book_move, try_or_none, bind, invoke, book_query. simpl.
  destruct (open_reader (world s) (polyglot_book engine_cfg)) as [w1 [[]|e]];
    [|reflexivity].
  destruct (polyglot_random engine_cfg); simpl.
  - destruct (reader_choice w1 board) as [w2 [m|e]]; reflexivity.
  - destruct (reader_find w1 board (polyglot_min_weight engine_cfg))
      as [w2 [m|e]]; reflexivity.
Qed.

Lemma play_first_move_calls (game : Game) (board : Board) (s : rt) :
  is_engine_move game (split (state_moves game)) = true ->
  exists rest,
    calls (snd (play_first_move game board s))
    = calls s ++ FirstSearch board 2000 :: rest.
Proof.
  intros Hturn. unfold play_first_move. rewrite Hturn.
  unfold bind, invoke, ret.
  destruct (engine_first_search (world s) board 2000) as [w1 [m|e]]; simpl.
  - destruct (li_make_move w1 (game_id game) m) as [w2 [[]|e]]; simpl;
      eexists; rewrite <- app_assoc; reflexivity.
  - eexists. reflexivity.
Qed.

(** C8. [get_book_move] never raises; when opening the book or querying
    it fails, for whatever reason, it returns [None]. Its callers then
    turn to the engine: [play_first_book_move] goes on as
    [play_first_move], whose first call is [engine.first_search] with
    the fixed 2000, and the gameState branch goes on with
    [engine.search] on the updated board. *)
Theorem book_failure_falls_back_to_engine :
  forall (engine_cfg : EngineConfig) (board : Board) (s : rt),
    (exists suggestion,
        fst (get_book_move board engine_cfg s) = Returns suggestion) /\
    (lookup_fails engine_cfg board (world s) ->
     fst (get_book_move board engine_cfg s) = Returns None) /\
    (forall game : Game,
        fst (get_book_move board engine_cfg s) = Returns None ->
        is_engine_move game (split (state_moves game)) = true ->
        play_first_book_move game board engine_cfg s
        = play_first_move game board (snd (get_book_move board engine_cfg s))
        /\
        exists rest,
          calls (snd (play_first_book_move game board engine_cfg s))
          = calls (snd (get_book_move board engine_cfg s))
            ++ FirstSearch board 2000 :: rest) /\
    (forall (game : Game) (board0 : Board) (moves last_move : string)
            (m : Move) (wtime btime winc binc : Z),
        last_item (split moves) = Some last_move ->
        from_uci last_move = Some m ->
        board = push board0 m ->
        is_engine_move game (split moves) = true ->
        polyglot engine_cfg = true ->
        Z.of_nat (List.length (split moves))
        <= polyglot_max_depth engine_cfg * 2 - 1 ->
        fst (get_book_move board engine_cfg s) = Returns None ->
        on_game_state engine_cfg game board0 moves wtime btime winc binc s
        = answer_with_search (set_state game moves) board
            wtime btime winc binc (snd (get_book_move board engine_cfg s))
        /\
        exists rest,
          calls (snd (on_game_state engine_cfg game board0 moves
                        wtime btime winc binc s))
          = calls (snd (get_book_move board engine_cfg s))
            ++ Search board wtime btime winc binc :: rest).
Proof.
  intros engine_cfg board s. split; [|split; [|split]].
  - rewrite get_book_move_run.
    destruct (open_reader (world s) (polyglot_book engine_cfg))
      as [w1 [[]|e]]; [|eexists; reflexivity].
    destruct (book_query engine_cfg board w1) as [w2 [m|e]];
      eexists; reflexivity.
  - unfold lookup_fails. rewrite get_book_move_run.
    destruct (open_reader (world s) (polyglot_book engine_cfg))
      as [w1 [[]|e]]; [|reflexivity].
    destruct (book_query engine_cfg board w1) as [w2 [m|e]];
      [contradiction | reflexivity].
  - intros game Hnone Hturn.
    assert (E : play_first_book_move game board engine_cfg s
                = play_first_move game board
                    (snd (get_book_move board engine_cfg s))).
    { unfold play_first_book_move. rewrite Hturn. unfold bind.
      destruct (get_book_move board engine_cfg s) as [[[m|]|e] s1];
        simpl in *; try discriminate. reflexivity. }
    split; [exact E|]. rewrite E. now apply play_first_move_calls.
  - intros game board0 moves last_move m wtime btime winc binc
           Hlast Huci Hboard Hturn Hbook Hdepth Hnone.
    assert (E : on_game_state engine_cfg game board0 moves
                  wtime btime winc binc s
                = answer_with_search (set_state game moves) board
                    wtime btime winc binc
                    (snd (get_book_move board engine_cfg s))).
    { subst board. unfold on_game_state. rewrite Hlast.
      unfold update_board. rewrite Huci. unfold lift, bind at 1.
      rewrite is_engine_move_set_state, Hturn, Hbook.
      apply Z.leb_le in Hdepth. rewrite Hdepth. simpl andb. cbv iota.
      unfold bind at 1.
      destruct (get_book_move (push board0 m) engine_cfg s)
        as [[[m'|]|e] s1]; simpl in *; try discriminate. reflexivity. }
    split; [exact E|]. rewrite E.
    destruct (answer_with_search_calls (set_state game moves) board
                wtime btime winc binc
                (snd (get_book_move board engine_cfg s))) as (rest & Hc & _).
    eauto.
Qed.

(** *** The stored board *)

Lemma bind_returns {A B : Type} (m : M A) (k : A -> M B) (s : rt) (b : B) :
  fst (bind m k s) = Returns b ->
  exists a, fst (m s) = Returns a /\ fst (k a (snd (m s))) = Returns b.
Proof.
  unfold bind. destruct (m s) as [[a|e] s1]; simpl; [eauto | discriminate].
Qed.

Lemma on_game_state_returns (engine_cfg : EngineConfig) (game game' : Game)
    (board board' : Board) (moves : string) (wtime btime winc binc : Z)
    (s : rt) :
  fst (on_game_state engine_cfg game board moves wtime btime winc binc s)
  = Returns (game', board') ->
  exists last_move m,
    last_item (split moves) = Some last_move /\
    from_uci last_move = Some m /\
    board' = push board m /\ game' = set_state game moves.
Proof.
  unfold on_game_state.
  destruct (last_item (split moves)) as [mv|] eqn:Hlast; [|discriminate].
  unfold update_board.
  destruct (from_uci mv) as [m|] eqn:Huci; [|discriminate].
  unfold lift, bind at 1.
  destruct (is_engine_move (set_state game moves) (split moves)).
  - intros H.
    apply bind_returns in H. destruct H as (book_move & _ & H).
    apply bind_returns in H. destruct H as (best_move & _ & H).
    apply bind_returns in H. destruct H as (_ & _ & H).
    apply bind_returns in H. destruct H as (_ & _ & H).
    simpl in H. injection H as <- <-.
    exists mv, m. auto.
  - simpl. intros [= <- <-]. exists mv, m. auto.
Qed.

Lemma replay_app (board : Board) (moves1 moves2 : list string) :
  replay board (moves1 ++ moves2)
  = match replay board moves1 with
    | Returns board1 => replay board1 moves2
    | Raises e => Raises e
    end.
Proof.
  revert board. induction moves1 as [|mv moves1 IH]; intros board; simpl;
    [reflexivity|].
  destruct (update_board board mv); auto.
Qed.

Lemma replay_stack (moves : list string) :
  forall board board',
    replay board moves = Returns board' ->
    List.length (move_stack board')
    = (List.length (move_stack board) + List.length moves)%nat.
Proof.
  induction moves as [|mv moves IH]; intros board board'; simpl.
  - intros [= <-]. lia.
  - unfold update_board. destruct (from_uci mv) as [m|]; [|discriminate].
    intros H. rewrite (IH _ _ H). unfold push. simpl.
    rewrite length_app. simpl. lia.
Qed.

Lemma replay_one (board : Board) (mv : string) (m : Move) :
  from_uci mv = Some m -> replay board [mv] = Returns (push board m).
Proof. intros H. simpl. unfold update_board. now rewrite H. Qed.

(** C10. A gameState update that is handled to its end has pushed
    exactly one move on the stored board, the last one of the update's
    move list, and nothing else. So the stored board is the position of
    the update's full move list when the list extends the moves already
    on the board by exactly one move. When the list only repeats the
    moves already on the board, or brings two new moves, the one push is
    all the same what happens: the stored board is then not the position
    of the list, but that of the list with its last move doubled, or
    with its last move but one left out. *)
Theorem game_state_pushes_last_move_only :
  forall (engine_cfg : EngineConfig) (game game' : Game)
         (board board' : Board) (moves : string)
         (wtime btime winc binc : Z) (s : rt),
    fst (on_update engine_cfg game board
           (Some (GameState moves wtime btime winc binc)) s)
    = Returns (game', board') ->
    exists last_move m,
      last_item (split moves) = Some last_move /\
      from_uci last_move = Some m /\
      board' = push board m /\
      state_moves game' = moves /\
      forall start : Board,
        (forall before,
            split moves = before ++ [last_move] ->
            replay start before = Returns board ->
            replay start (split moves) = Returns board') /\
        (replay start (split moves) = Returns board ->
         replay start (split moves) <> Returns board' /\
         replay start (split moves ++ [last_move]) = Returns board') /\
        (forall before extra,
            split moves = before ++ [extra; last_move] ->
            replay start before = Returns board ->
            replay start (split moves) <> Returns board' /\
            replay start (before ++ [last_move]) = Returns board').
Proof.
  intros engine_cfg game game' board board' moves wtime btime winc binc s H.
  cbn [on_update] in H.
  destruct (on_game_state_returns _ _ _ _ _ _ _ _ _ _ _ H)
    as (mv & m & Hlast & Huci & -> & ->).
  exists mv, m. repeat (split; [assumption || reflexivity|]).
  intros start. split; [|split].
  - intros before Hsplit Hbefore.
    rewrite Hsplit, replay_app, Hbefore. now apply replay_one.
  - intros Hsame. split.
    + intros Hrep. rewrite Hsame in Hrep. injection Hrep as Hrep.
      apply (f_equal (fun b => List.length (move_stack b))) in Hrep.
      unfold push in Hrep. simpl in Hrep. rewrite length_app in Hrep.
      simpl in Hrep. lia.
    + rewrite replay_app, Hsame. now apply replay_one.
  - intros before extra Hsplit Hbefore. split.
    + intros Hrep. rewrite Hsplit in Hrep.
      apply replay_stack in Hrep. apply replay_stack in Hbefore.
      unfold push in Hrep. simpl in Hrep.
      rewrite !length_app in Hrep. simpl in Hrep. lia.
    + rewrite replay_app, Hbefore. now apply replay_one.
Qed.

(** *** Cleanup *)

Section CleanupCalls.
Variable p : call -> bool.
Hypothesis p_cleanup :
  forall c, p c = true -> c = EngineQuit \/ c = PutLocalGameDone.

Lemma get_book_move_keeps (board : Board) (engine_cfg : EngineConfig) :
  keeps p (get_book_move board engine_cfg).
Proof. unfold get_book_move. repeat keeps_step. Qed.

Lemma play_first_move_keeps (game : Game) (board : Board) :
  keeps p (play_first_move game board).
Proof. unfold play_first_move. repeat keeps_step. Qed.

Lemma play_first_book_move_keeps (game : Game) (board : Board)
    (engine_cfg : EngineConfig) :
  keeps p (play_first_book_move game board engine_cfg).
Proof.
  unfold play_first_book_move.
  destruct (is_engine_move game (split (state_moves game)));
    [|apply keeps_ret].
  apply keeps_bind; [apply get_book_move_keeps|].
  intros [m|]; [repeat keeps_step | apply play_first_move_keeps].
Qed.

Lemma on_update_keeps (engine_cfg : EngineConfig) (game : Game)
    (board : Board) (chunk : option update) :
  keeps p (on_update engine_cfg game board chunk).
Proof.
  assert (Hping : keeps p (on_ping game ;; ret (game, board))).
  { unfold on_ping. repeat keeps_step. }
  destruct chunk as [[g|text|moves wtime btime winc binc|type]|];
    cbn [on_update].
  - apply keeps_ret.
  - repeat keeps_step.
  - unfold on_game_state.
    destruct (last_item (split moves)) as [mv|]; [|apply keeps_raise].
    apply keeps_bind; [apply keeps_lift|]. intros board1.
    destruct (is_engine_move (set_state game moves) (split moves));
      [|apply keeps_ret].
    apply keeps_bind.
    + destruct (polyglot engine_cfg
                && (Z.of_nat (List.length (split moves))
                    <=? polyglot_max_depth engine_cfg * 2 - 1));
        [apply get_book_move_keeps | apply keeps_ret].
    + intros book_move. repeat keeps_step.
  - destruct (String.eqb type "ping"); [exact Hping | apply keeps_ret].
  - exact Hping.
Qed.

Lemma update_loop_keeps (engine_cfg : EngineConfig) (updates : list line) :
  forall game board, keeps p (update_loop engine_cfg game board updates).
Proof.
  induction updates as [|[chunk|e] updates IH]; intros game board;
    cbn [update_loop].
  - apply keeps_ret.
  - apply keeps_bind; [apply on_update_keeps|]. intros gb. apply IH.
  - apply keeps_raise.
Qed.

Lemma first_phase_keeps (engine_cfg : EngineConfig) (stream : list line) :
  keeps p (first_phase engine_cfg stream).
Proof.
  destruct stream as [|[chunk|e] updates]; cbn [first_phase].
  - apply keeps_raise.
  - apply keeps_bind; [apply keeps_lift|]. intros game.
    apply keeps_bind; [apply keeps_lift|]. intros board.
    apply keeps_bind; [keeps_step|]. intros _.
    apply keeps_bind; [keeps_step|]. intros _.
    apply keeps_bind; [|intros board1; apply keeps_ret].
    destruct (polyglot engine_cfg);
      [apply play_first_book_move_keeps | apply play_first_move_keeps].
  - apply keeps_raise.
Qed.

End CleanupCalls.

(** What the [finally] clause guarantees. Once the first phase of
    [play_game] has come back (the stream was opened and read, the
    engine made, the first move dealt with), the session ends with
    exactly one [engine.quit()] followed by exactly one local_game_done
    pushed on the control queue, however the update loop ends: stream
    exhausted, one of the four caught transport errors, or any other
    exception. [play_game] returns normally in the first two cases and
    passes the exception on in the last. *)
Theorem cleanup_once_after_first_phase :
  forall (engine_cfg : EngineConfig) (stream : list line) (s : rt)
         (game : Game) (board : Board) (updates : list line) (s1 : rt),
    first_phase engine_cfg stream s = (Returns (game, board, updates), s1) ->
    forall (r : result unit) (s2 : rt),
      update_loop engine_cfg game board updates s1 = (r, s2) ->
      play_game engine_cfg stream s
      = (match r with
         | Returns _ => Returns tt
         | Raises e => if caught e then Returns tt else Raises e
         end,
         {| world := engine_quit (world s2);
            calls := calls s2 ++ [EngineQuit; PutLocalGameDone] |}) /\
      count is_quit (calls (snd (play_game engine_cfg stream s)))
      = (count is_quit (calls s) + 1)%nat /\
      count is_done (calls (snd (play_game engine_cfg stream s)))
      = (count is_done (calls s) + 1)%nat.
Proof.
  intros engine_cfg stream s game board updates s1 Hfirst r s2 Hloop.
  assert (Hrun : play_game engine_cfg stream s
                 = (match r with
                    | Returns _ => Returns tt
                    | Raises e => if caught e then Returns tt else Raises e
                    end,
                    {| world := engine_quit (world s2);
                       calls := calls s2 ++ [EngineQuit; PutLocalGameDone] |})).
  { unfold play_game, bind at 1. rewrite Hfirst.
    unfold try_except_finally. rewrite Hloop.
    unfold cleanup, bind, perform. simpl. now rewrite <- app_assoc. }
  assert (Hkeep : forall p,
             (forall c, p c = true -> c = EngineQuit \/ c = PutLocalGameDone) ->
             count p (calls s2) = count p (calls s)).
  { intros p Hp.
    pose proof (keeps_count p _ s1
                  (update_loop_keeps p Hp engine_cfg updates game board)) as H2.
    pose proof (keeps_count p _ s
                  (first_phase_keeps p Hp engine_cfg stream)) as H1.
    rewrite Hloop in H2. rewrite Hfirst in H1. simpl in H1, H2. congruence. }
  split; [exact Hrun|]. rewrite Hrun. simpl. rewrite !count_app. split.
  - rewrite (Hkeep is_quit); [reflexivity|].
    intros [] Hc; try discriminate; auto.
  - rewrite (Hkeep is_done); [reflexivity|].
    intros [] Hc; try discriminate; auto.
Qed.

(** *** More on turns and boards *)

(** X7. The turn passes with every ply, and of two sessions that play
    the two colours of one game exactly one is to move. *)
Theorem turn_passes_with_every_ply :
  (forall (game : Game) (moves : list string) (move : string),
      is_engine_move game (moves ++ [move])
      = negb (is_engine_move game moves)) /\
  (forall (game1 game2 : Game) (moves : list string),
      is_white game1 = negb (is_white game2) ->
      white_starts game1 = white_starts game2 ->
      is_engine_move game1 moves = negb (is_engine_move game2 moves)).
Proof.
  split.
  - intros game moves move. unfold is_engine_move.
    rewrite !is_white_to_move_parity, length_app. simpl.
    rewrite Nat.add_1_r, Nat.even_succ, <- Nat.negb_even.
    destruct (is_white game), (white_starts game),
      (Nat.even (List.length moves)); reflexivity.
  - intros game1 game2 moves Hcolour Hfirst. unfold is_engine_move.
    rewrite !is_white_to_move_parity, Hcolour, Hfirst.
    destruct (is_white game2), (white_starts game2),
      (Nat.even (List.length moves)); reflexivity.
Qed.

Lemma replay_moves (moves : list string) :
  forall board board',
    replay board moves = Returns board' ->
    board_setup board' = board_setup board /\
    exists pushed,
      move_stack board' = move_stack board ++ pushed /\
      map from_uci moves = map Some pushed.
Proof.
  induction moves as [|mv moves IH]; intros board board'; simpl.
  - intros [= <-]. split; [reflexivity|]. exists []. now rewrite app_nil_r.
  - unfold update_board.
    destruct (from_uci mv) as [m|] eqn:Huci; [|discriminate].
    intros H. destruct (IH _ _ H) as (Hsetup & pushed & Hstack & Hmap).
    split; [exact Hsetup|]. exists (m :: pushed). simpl in *.
    rewrite Hstack, <- app_assoc, Hmap. auto.
Qed.

Lemma replay_raises (moves : list string) :
  forall board e, replay board moves = Raises e -> e = ValueError.
Proof.
  induction moves as [|mv moves IH]; intros board e; simpl; [discriminate|].
  unfold update_board. destruct (from_uci mv) as [m|].
  - apply IH.
  - now intros [= <-].
Qed.

(** X8. The board [setup_board] returns starts from the variant or the
    position of the game and holds the moves of the game state, all of
    them and in order, as python-chess decodes them: it is the replay of
    the game's moves from the unmoved board. The only exception it
    raises itself is the ValueError of a position, variant or move that
    python-chess refuses. *)
Theorem setup_board_replays_the_moves :
  (forall (game : Game) (board : Board),
      setup_board game = Returns board ->
      map from_uci (split (state_moves game))
      = map Some (move_stack board) /\
      List.length (move_stack board) = plies game /\
      board_setup board
      = (if String.eqb (lower (variant_name game)) "chess960"
         then Chess960 (initial_fen game)
         else if String.eqb (variant_name game) "From Position"
              then FromPosition (initial_fen game)
              else Variant (variant_name game)) /\
      replay (unmoved board) (split (state_moves game)) = Returns board) /\
  (forall (game : Game) (e : exn),
      setup_board game = Raises e -> e = ValueError).
Proof.
  split.
  - intros game board. unfold setup_board, plies, unmoved.
    set (start :=
           if String.eqb (lower (variant_name game)) "chess960"
           then Chess960 (initial_fen game)
           else if String.eqb (variant_name game) "From Position"
                then FromPosition (initial_fen game)
                else Variant (variant_name game)).
    intros H.
    assert (Hrun : replay {| board_setup := start; move_stack := [] |}
                          (split (state_moves game)) = Returns board).
    { subst start.
      destruct (String.eqb (lower (variant_name game)) "chess960").
      - destruct (valid_fen (initial_fen game)); [exact H | discriminate].
      - destruct (String.eqb (variant_name game) "From Position").
        + destruct (valid_fen (initial_fen game)); [exact H | discriminate].
        + destruct (find_variant (variant_name game));
            [exact H | discriminate]. }
    destruct (replay_moves _ _ _ Hrun) as (Hsetup & pushed & Hstack & Hmap).
    simpl in Hsetup, Hstack. subst pushed.
    repeat split.
    + exact Hmap.
    + apply (f_equal (@List.length _)) in Hmap.
      rewrite !length_map in Hmap. auto.
    + exact Hsetup.
    + rewrite Hsetup. exact Hrun.
  - intros game e. unfold setup_board.
    destruct (String.eqb (lower (variant_name game)) "chess960").
    + destruct (valid_fen (initial_fen game)).
      * apply replay_raises.
      * now intros [= <-].
    + destruct (String.eqb (variant_name game) "From Position").
      * destruct (valid_fen (initial_fen game)).
        -- apply replay_raises.
        -- now intros [= <-].
      * destruct (find_variant (variant_name game)).
        -- apply replay_raises.
        -- now intros [= <-].
Qed.

(** *** Updates the driver cannot read *)

Lemma update_loop_unreadable (engine_cfg : EngineConfig) (moves : string)
    (wtime btime winc binc : Z) (rest : list line) (e : exn)
    (before : list line) :
  (forall game board s,
      on_game_state engine_cfg game board moves wtime btime winc binc s
      = (Raises e, s)) ->
  forall (game : Game) (board : Board) (s s2 : rt),
    update_loop engine_cfg game board before s = (Returns tt, s2) ->
    update_loop engine_cfg game board
      (before ++ Chunk (Some (GameState moves wtime btime winc binc)) :: rest)
      s
    = (Raises e, s2).
Proof.
  intros Hraise.
  induction before as [|[chunk|e'] before IH]; intros game board s s2;
    cbn [update_loop app].
  - intros [= <-]. cbn [on_update]. unfold bind. now rewrite Hraise.
  - unfold bind.
    destruct (on_update engine_cfg game board chunk s) as [[gb|e'] s1];
      [|discriminate].
    apply IH.
  - discriminate.
Qed.

(** X11. Once the first phase has come back, a gameState update whose
    move list is empty (a blank moves string) ends the session with an
    IndexError, and one whose last move python-chess refuses ends it
    with a ValueError, wherever in the stream the update comes, provided
    the messages before it were handled: neither exception is among the
    caught ones, so it leaves [play_game], after the engine was shut
    down and the local_game_done pushed, and the rest of the stream is
    not read. *)
Theorem unreadable_update_ends_the_session :
  forall (engine_cfg : EngineConfig) (stream before rest : list line)
         (s s1 s2 : rt) (game : Game) (board : Board) (moves : string)
         (wtime btime winc binc : Z),
    first_phase engine_cfg stream s
    = (Returns (game, board,
                before
                ++ Chunk (Some (GameState moves wtime btime winc binc))
                   :: rest),
       s1) ->
    update_loop engine_cfg game board before s1 = (Returns tt, s2) ->
    let ended (e : exn) :=
      play_game engine_cfg stream s
      = (Raises e,
         {| world := engine_quit (world s2);
            calls := calls s2 ++ [EngineQuit; PutLocalGameDone] |}) in
    (split moves = [] -> ended IndexError) /\
    (forall last_move,
        last_item (split moves) = Some last_move ->
        from_uci last_move = None -> ended ValueError).
Proof.
  intros engine_cfg stream before rest s s1 s2 game board moves
         wtime btime winc binc Hfirst Hbefore ended.
  assert (Hend : forall e,
             (forall game board s,
                 on_game_state engine_cfg game board moves
                               wtime btime winc binc s = (Raises e, s)) ->
             caught e = false -> ended e).
  { intros e Hraise Hcaught. unfold ended, play_game, bind at 1.
    rewrite Hfirst. unfold try_except_finally.
    rewrite (update_loop_unreadable engine_cfg moves wtime btime winc binc
               rest e before Hraise game board s1 s2 Hbefore).
    rewrite Hcaught. unfold cleanup, bind, perform. simpl.
    now rewrite <- app_assoc. }
  split.
  - intros Hblank. apply Hend; [|reflexivity].
    intros g b s'. unfold on_game_state. now rewrite Hblank.
  - intros mv Hlast Huci. apply Hend; [|reflexivity].
    intros g b s'. unfold on_game_state, update_board.
    now rewrite Hlast, Huci.
Qed.

(** *** The ping branch, from the second ply on *)

Lemma on_ping_calls (game : Game) {A : Type} (a : A) (s : rt) :
  calls (snd ((on_ping game ;; ret a) s))
  = calls s ++ ShouldAbortNow ::
      (if snd (game_should_abort_now (world s))
          && Nat.ltb (String.length (state_moves game)) 6
       then [Abort (game_id game)] else []).
Proof.
  unfold on_ping, bind, invoke, ret. simpl.
  destruct (game_should_abort_now (world s)) as [w' b]. simpl.
  destruct (b && Nat.ltb (String.length (state_moves game)) 6); simpl.
  - destruct (li_abort w' (game_id game)) as [w'' [[]|e]]; simpl;
      now rewrite <- app_assoc.
  - reflexivity.
Qed.



(** X14. When the moves of the stored game state have four characters
    or more each, as UCI moves have, then from the second ply on a ping
    never leads to an abort request, whatever the deadline says: the
    driver asks [should_abort_now] and does nothing else. *)
Theorem no_abort_from_the_second_ply :
  forall (engine_cfg : EngineConfig) (game : Game) (board : Board)
         (chunk : option update) (s : rt),
    Forall (fun move => (4 <= String.length move)%nat)
           (split (state_moves game)) ->
    (2 <= plies game)%nat ->
    chunk = None \/ chunk = Some (OtherUpdate "ping") ->
    calls (snd (on_update engine_cfg game board chunk s))
    = calls s ++ [ShouldAbortNow].
Proof.
  intros engine_cfg game board chunk s Hlong Hplies Hchunk.
  assert (H : on_update engine_cfg game board chunk
              = (on_ping game ;; ret (game, board))).
  { destruct Hchunk as [-> | ->]; reflexivity. }
  rewrite H, on_ping_calls.
  rewrite (two_plies_make_a_long_moves_string game Hlong Hplies).
  now rewrite andb_false_r.
Qed.

(** *** What a computation adds to the trace *)

Lemma emits_ret (P : call -> Prop) {A : Type} (a : A) : emits P (ret a).
Proof. intros s. exists []. simpl. now rewrite app_nil_r. Qed.

Lemma emits_raise (P : call -> Prop) {A : Type} (e : exn) :
  emits P (@raise _ _ A e).
Proof. intros s. exists []. simpl. now rewrite app_nil_r. Qed.

Lemma emits_lift (P : call -> Prop) {A : Type} (r : result A) :
  emits P (lift r).
Proof. intros s. exists []. simpl. now rewrite app_nil_r. Qed.

Lemma emits_invoke (P : call -> Prop) {A : Type} (c : call)
    (f : W -> W * result A) :
  P c -> emits P (invoke c f).
Proof.
  intros Hc s. exists [c]. unfold invoke.
  destruct (f (world s)) as [w r]. simpl. auto.
Qed.

Lemma emits_perform (P : call -> Prop) (c : call) (f : W -> W) :
  P c -> emits P (perform c f).
Proof. intros Hc s. exists [c]. simpl. auto. Qed.

Lemma emits_at_bind (P : call -> Prop) {A B : Type} (m : M A)
    (k : A -> M B) (s : rt) :
  emits_at P m s ->
  (forall a, fst (m s) = Returns a -> emits_at P (k a) (snd (m s))) ->
  emits_at P (bind m k) s.
Proof.
  intros (added & Hm & HP) Hk. unfold emits_at, bind.
  destruct (m s) as [[a|e] s1]; simpl in *.
  - destruct (Hk a eq_refl) as (added' & Hk' & HP').
    exists (added ++ added'). rewrite Hk', Hm, app_assoc. split; [reflexivity|].
    apply Forall_app. auto.
  - exists added. auto.
Qed.

Lemma emits_bind (P : call -> Prop) {A B : Type} (m : M A) (k : A -> M B) :
  emits P m -> (forall a, emits P (k a)) -> emits P (bind m k).
Proof.
  intros Hm Hk s. apply emits_at_bind; [apply Hm|]. intros a _. apply Hk.
Qed.

Lemma emits_try_or_none (P : call -> Prop) {A : Type} (m : M A) :
  emits P m -> emits P (try_or_none m).
Proof.
  intros Hm s. destruct (Hm s) as (added & Hc & HP). exists added.
  unfold try_or_none. destruct (m s) as [[a|e] s1]; auto.
Qed.

Lemma emits_count (p : call -> bool) {A : Type} (m : M A) (s : rt) :
  emits_at (fun c => p c = false) m s ->
  count p (calls (snd (m s))) = count p (calls s).
Proof.
  intros (added & Hc & HP). rewrite Hc, count_app.
  assert (H0 : count p added = 0%nat).
  { unfold count. clear Hc. induction HP as [|c l Hc _ IH]; simpl;
      [reflexivity|]. now rewrite Hc. }
  lia.
Qed.

Ltac emits_step :=
  match goal with
  | |- emits _ (bind _ _) => apply emits_bind; [|intros ?]
  | |- emits _ (ret _) => apply emits_ret
  | |- emits _ (raise _) => apply emits_raise
  | |- emits _ (lift _) => apply emits_lift
  | |- emits _ (invoke _ _) => apply emits_invoke
  | |- emits _ (perform _ _) => apply emits_perform
  | |- emits _ (try_or_none _) => apply emits_try_or_none
  | |- emits _ (if ?b then _ else _) => destruct b
  | |- emits _ (match ?x with _ => _ end) => destruct x
  end.

(** The book is asked about the board it is given and about nothing
    else, and it neither submits a move nor asks the engine. *)
Lemma get_book_move_emits (P : call -> Prop) (board : Board)
    (engine_cfg : EngineConfig) :
  P (OpenReader (polyglot_book engine_cfg)) ->
  P (ReaderChoice board) ->
  P (ReaderFind board (polyglot_min_weight engine_cfg)) ->
  emits P (get_book_move board engine_cfg).
Proof.
  intros H1 H2 H3. unfold get_book_move. repeat emits_step; assumption.
Qed.

(** *** Moves are submitted on the engine's turn *)

(** How the gameState branch chooses its move: the book first, where it
    may be asked, the engine otherwise. *)
Lemma on_game_state_on_turn (engine_cfg : EngineConfig) (game : Game)
    (board : Board) (moves last_move : string) (m : Move)
    (wtime btime winc binc : Z) (s : rt) :
  last_item (split moves) = Some last_move ->
  from_uci last_move = Some m ->
  is_engine_move game (split moves) = true ->
  on_game_state engine_cfg game board moves wtime btime winc binc s
  = match
      (if polyglot engine_cfg
          && (Z.of_nat (List.length (split moves))
              <=? polyglot_max_depth engine_cfg * 2 - 1)
       then get_book_move (push board m) engine_cfg
       else ret None) s
    with
    | (Returns (Some book_move), s1) =>
        (invoke (MakeMove (game_id game) book_move)
                (fun w => li_make_move w (game_id game) book_move) ;;
         perform (AbortIn 20) (fun w => game_abort_in w 20) ;;
         ret (set_state game moves, push board m)) s1
    | (Returns None, s1) =>
        answer_with_search (set_state game moves) (push board m)
                           wtime btime winc binc s1
    | (Raises e, s1) => (Raises e, s1)
    end.
Proof.
  intros Hlast Huci Hturn. unfold on_game_state. rewrite Hlast.
  unfold update_board. rewrite Huci. unfold lift, bind at 1.
  rewrite is_engine_move_set_state, Hturn. unfold bind at 1.
  destruct ((if polyglot engine_cfg
                && (Z.of_nat (List.length (split moves))
                    <=? polyglot_max_depth engine_cfg * 2 - 1)
             then get_book_move (push board m) engine_cfg
             else ret None) s) as [[[book_move|]|e] s1]; reflexivity.
Qed.

Lemma answer_with_search_run (game : Game) (board : Board)
    (wtime btime winc binc : Z) (s : rt) :
  answer_with_search game board wtime btime winc binc s
  = let (w, r) := engine_search (world s) board wtime btime winc binc in
    let s1 := {| world := w;
                 calls := calls s ++ [Search board wtime btime winc binc] |} in
    match r with
    | Returns best_move =>
        (invoke (MakeMove (game_id game) best_move)
                (fun w => li_make_move w (game_id game) best_move) ;;
         perform (AbortIn 20) (fun w => game_abort_in w 20) ;;
         ret (game, board)) s1
    | Raises e => (Raises e, s1)
    end.
Proof.
  unfold answer_with_search. unfold bind at 1. unfold invoke at 1.
  destruct (engine_search (world s) board wtime btime winc binc)
    as [w [best|e]]; reflexivity.
Qed.

Lemma submit_calls (game : Game) (gb : Game * Board) (move : Move) (s : rt) :
  let run := (invoke (MakeMove (game_id game) move)
                     (fun w => li_make_move w (game_id game) move) ;;
              perform (AbortIn 20) (fun w => game_abort_in w 20) ;;
              ret gb) s in
  (calls (snd run) = calls s ++ [MakeMove (game_id game) move] \/
   calls (snd run) = calls s ++ [MakeMove (game_id game) move; AbortIn 20]) /\
  (forall r, fst run = Returns r ->
             calls (snd run)
             = calls s ++ [MakeMove (game_id game) move; AbortIn 20]).
Proof.
  unfold bind, invoke, perform, ret. simpl.
  destruct (li_make_move (world s) (game_id game) move) as [w1 [[]|e]];
    simpl; rewrite <- ?app_assoc; simpl; split; auto; discriminate.
Qed.

(** X10. While a gameState update is handled: when it is not the
    engine's turn nothing is called at all (the board and the stored
    state are updated and that is it); in any case at most one move is
    submitted; and when it is the engine's turn and the update is
    handled to its end, exactly one move was submitted, as the last
    request, followed by [game.abort_in(20)]. *)
Theorem moves_submitted_only_on_own_turn :
  forall (engine_cfg : EngineConfig) (game : Game) (board : Board)
         (moves : string) (wtime btime winc binc : Z) (s : rt),
    let run := on_update engine_cfg game board
                 (Some (GameState moves wtime btime winc binc)) s in
    (is_engine_move game (split moves) = false -> snd run = s) /\
    (count is_make_move (calls (snd run))
     <= count is_make_move (calls s) + 1)%nat /\
    (forall gb,
        fst run = Returns gb ->
        is_engine_move game (split moves) = true ->
        exists before move,
          calls (snd run)
          = calls s ++ before ++ [MakeMove (game_id game) move; AbortIn 20] /\
          count is_make_move before = 0%nat).
Proof.
  intros engine_cfg game board moves wtime btime winc binc s.
  cbv zeta. cbn [on_update].
  destruct (last_item (split moves)) as [mv|] eqn:Hlast.
  2:{ unfold on_game_state. rewrite Hlast. simpl.
      repeat split; [lia | discriminate]. }
  destruct (from_uci mv) as [m|] eqn:Huci.
  2:{ unfold on_game_state, update_board. rewrite Hlast, Huci. simpl.
      repeat split; [lia | discriminate]. }
  destruct (is_engine_move game (split moves)) eqn:Hturn.
  2:{ unfold on_game_state, update_board. rewrite Hlast, Huci.
      unfold lift, bind at 1. rewrite is_engine_move_set_state, Hturn. simpl.
      repeat split; [lia | discriminate]. }
  rewrite (on_game_state_on_turn _ _ _ _ _ _ _ _ _ _ s Hlast Huci Hturn).
  set (chooser := if polyglot engine_cfg
                     && (Z.of_nat (List.length (split moves))
                         <=? polyglot_max_depth engine_cfg * 2 - 1)
                  then get_book_move (push board m) engine_cfg
                  else ret None).
  assert (Hchoose : emits (fun c => is_make_move c = false) chooser).
  { subst chooser.
    destruct (polyglot engine_cfg
              && (Z.of_nat (List.length (split moves))
                  <=? polyglot_max_depth engine_cfg * 2 - 1));
      [apply get_book_move_emits; reflexivity | apply emits_ret]. }
  destruct (Hchoose s) as (looked & Hlooked & Hquiet).
  assert (Hzero : count is_make_move looked = 0%nat).
  { unfold count. clear Hlooked.
    induction Hquiet as [|c l Hc _ IH]; simpl; [reflexivity|].
    now rewrite Hc. }
  destruct (chooser s) as [[[book_move|]|e] s1]; simpl in Hlooked.
  - destruct (submit_calls game (set_state game moves, push board m)
                book_move s1) as [Hany Hdone].
    cbv zeta in Hany, Hdone. split; [discriminate|]. split.
    + destruct Hany as [-> | ->]; rewrite Hlooked, !count_app, Hzero;
        unfold count; simpl; lia.
    + intros gb Hret _. exists looked, book_move.
      rewrite (Hdone _ Hret), Hlooked, <- app_assoc. auto.
  - rewrite answer_with_search_run.
    destruct (engine_search (world s1) (push board m) wtime btime winc binc)
      as [w2 [best|e]]; cbv zeta.
    + destruct (submit_calls (set_state game moves)
                  (set_state game moves, push board m) best
                  {| world := w2;
                     calls := calls s1
                              ++ [Search (push board m) wtime btime winc binc]
                  |}) as [Hany Hdone].
      cbv zeta in Hany, Hdone. cbn [calls] in Hany, Hdone.
      split; [discriminate|]. split.
      * destruct Hany as [-> | ->]; rewrite Hlooked, !count_app, Hzero;
          unfold count; simpl; lia.
      * intros gb Hret _.
        exists (looked ++ [Search (push board m) wtime btime winc binc]),
               best.
        rewrite (Hdone _ Hret), Hlooked, count_app, Hzero, <- !app_assoc.
        auto.
    + split; [discriminate|]. split.
      * cbn [snd calls]. rewrite Hlooked, !count_app, Hzero.
        unfold count. simpl. lia.
      * discriminate.
  - cbn [fst snd]. split; [discriminate|]. split.
    + rewrite Hlooked, !count_app, Hzero. unfold count. simpl. lia.
    + discriminate.
Qed.

(** *** A move of the book is played as it is *)

(** X12. When the book suggests a move, that move is what is submitted,
    right after the lookup, and the engine is not asked: for the first
    move in [play_first_book_move], and for a gameState update on the
    engine's turn while the book is enabled and the ply count within the
    depth. *)
Theorem book_move_is_played_without_engine :
  (forall (game : Game) (board : Board) (engine_cfg : EngineConfig)
          (s s1 : rt) (m : Move),
      is_engine_move game (split (state_moves game)) = true ->
      get_book_move board engine_cfg s = (Returns (Some m), s1) ->
      calls (snd (play_first_book_move game board engine_cfg s))
      = calls s1 ++ [MakeMove (game_id game) m] /\
      count is_search (calls (snd (play_first_book_move game board
                                     engine_cfg s)))
      = count is_search (calls s)) /\
  (forall (engine_cfg : EngineConfig) (game : Game) (board : Board)
          (moves last_move : string) (m0 m : Move)
          (wtime btime winc binc : Z) (s s1 : rt),
      last_item (split moves) = Some last_move ->
      from_uci last_move = Some m0 ->
      is_engine_move game (split moves) = true ->
      polyglot engine_cfg = true ->
      Z.of_nat (List.length (split moves))
      <= polyglot_max_depth engine_cfg * 2 - 1 ->
      get_book_move (push board m0) engine_cfg s = (Returns (Some m), s1) ->
      (exists tail,
          calls (snd (on_game_state engine_cfg game board moves
                        wtime btime winc binc s))
          = calls s1 ++ MakeMove (game_id game) m :: tail) /\
      count is_search (calls (snd (on_game_state engine_cfg game board moves
                                     wtime btime winc binc s)))
      = count is_search (calls s)).
Proof.
  assert (Hquiet : forall board engine_cfg s r s1,
             get_book_move board engine_cfg s = (r, s1) ->
             count is_search (calls s1) = count is_search (calls s)).
  { intros board engine_cfg s r s1 Hbook.
    pose proof (emits_count is_search (get_book_move board engine_cfg) s
                  (get_book_move_emits _ board engine_cfg
                     eq_refl eq_refl eq_refl s)) as H.
    now rewrite Hbook in H. }
  split.
  - intros game board engine_cfg s s1 m Hturn Hbook.
    assert (E : play_first_book_move game board engine_cfg s
                = (invoke (MakeMove (game_id game) m)
                          (fun w => li_make_move w (game_id game) m) ;;
                   ret board) s1).
    { unfold play_first_book_move. rewrite Hturn. unfold bind at 1.
      now rewrite Hbook. }
    rewrite E. unfold bind, invoke, ret.
    destruct (li_make_move (world s1) (game_id game) m) as [w2 [[]|e]];
      cbn [snd calls]; rewrite count_app, (Hquiet _ _ _ _ _ Hbook);
      unfold count; simpl; split; auto; lia.
  - intros engine_cfg game board moves mv m0 m wtime btime winc binc s s1
           Hlast Huci Hturn Hbook Hdepth Hlook.
    rewrite (on_game_state_on_turn _ _ _ _ _ _ _ _ _ _ s Hlast Huci Hturn).
    apply Z.leb_le in Hdepth. rewrite Hbook, Hdepth.
    change (true && true) with true. cbv iota.
    rewrite Hlook. unfold bind, invoke, perform, ret.
    destruct (li_make_move (world s1) (game_id game) m) as [w2 [[]|e]];
      cbn [snd calls world];
      rewrite <- ?app_assoc, !count_app, (Hquiet _ _ _ _ _ Hlook);
      unfold count; simpl; split; eauto; lia.
Qed.

(** *** The first phase *)

Lemma bind_run {A B : Type} (m : M A) (k : A -> M B) (s s' : rt) (b : B) :
  bind m k s = (Returns b, s') ->
  exists a s1, m s = (Returns a, s1) /\ k a s1 = (Returns b, s').
Proof.
  unfold bind. destruct (m s) as [[a|e] s1]; [eauto | discriminate].
Qed.

Lemma setup_board_unmoved (game : Game) (board : Board) :
  setup_board game = Returns board ->
  replay (unmoved board) (split (state_moves game)) = Returns board.
Proof.
  unfold setup_board, unmoved. intros H.
  assert (Hrun : exists start,
             replay {| board_setup := start; move_stack := [] |}
                    (split (state_moves game)) = Returns board).
  { destruct (String.eqb (lower (variant_name game)) "chess960").
    - destruct (valid_fen (initial_fen game)); [eauto | discriminate].
    - destruct (String.eqb (variant_name game) "From Position").
      + destruct (valid_fen (initial_fen game)); [eauto | discriminate].
      + destruct (find_variant (variant_name game)); [eauto | discriminate]. }
  destruct Hrun as [start Hrun].
  destruct (replay_moves _ _ _ Hrun) as (Hsetup & _).
  simpl in Hsetup. now rewrite Hsetup.
Qed.

Lemma play_first_move_returns (game : Game) (board board' : Board)
    (s s' : rt) :
  play_first_move game board s = (Returns board', s') ->
  board' = board /\
  exists added,
    calls s' = calls s ++ added /\
    (count is_make_move added <= 1)%nat /\
    (is_engine_move game (split (state_moves game)) = false -> added = []).
Proof.
  unfold play_first_move.
  destruct (is_engine_move game (split (state_moves game))).
  - unfold bind, invoke, ret.
    destruct (engine_first_search (world s) board 2000) as [w1 [m|e]];
      [|discriminate].
    simpl. destruct (li_make_move w1 (game_id game) m) as [w2 [[]|e]];
      [|discriminate].
    intros [= <- <-]. split; [reflexivity|].
    exists [FirstSearch board 2000; MakeMove (game_id game) m]. simpl.
    rewrite <- app_assoc. repeat split; [auto | discriminate].
  - intros [= <- <-]. split; [reflexivity|]. exists [].
    rewrite app_nil_r. repeat split. unfold count. simpl. lia.
Qed.

Lemma play_first_book_move_returns (game : Game) (board board' : Board)
    (engine_cfg : EngineConfig) (s s' : rt) :
  play_first_book_move game board engine_cfg s = (Returns board', s') ->
  board' = board /\
  exists added,
    calls s' = calls s ++ added /\
    (count is_make_move added <= 1)%nat /\
    (is_engine_move game (split (state_moves game)) = false -> added = []).
Proof.
  unfold play_first_book_move.
  destruct (is_engine_move game (split (state_moves game))) eqn:Hturn.
  - intros H. apply bind_run in H. destruct H as (book_move & s1 & Hbook & H).
    destruct (get_book_move_emits (fun c => is_make_move c = false)
                board engine_cfg eq_refl eq_refl eq_refl s)
      as (looked & Hlooked & Hquiet).
    rewrite Hbook in Hlooked. simpl in Hlooked.
    assert (Hzero : count is_make_move looked = 0%nat).
    { unfold count. clear Hlooked.
      induction Hquiet as [|c l Hc _ IH]; simpl; [reflexivity|].
      now rewrite Hc. }
    destruct book_move as [m|].
    + unfold bind, invoke, ret in H.
      destruct (li_make_move (world s1) (game_id game) m) as [w2 [[]|e]];
        [|discriminate].
      injection H as <- <-. split; [reflexivity|].
      exists (looked ++ [MakeMove (game_id game) m]). simpl.
      rewrite Hlooked, <- app_assoc, count_app, Hzero.
      repeat split; [auto | discriminate].
    + destruct (play_first_move_returns _ _ _ _ _ H)
        as (Hb & added & Hadded & Hone & _).
      split; [exact Hb|]. exists (looked ++ added).
      rewrite Hadded, Hlooked, <- app_assoc, count_app, Hzero.
      repeat split; [auto | discriminate].
  - intros [= <- <-]. split; [reflexivity|]. exists [].
    rewrite app_nil_r. repeat split. unfold count. simpl. lia.
Qed.

(** X9. When the first phase of [play_game] comes back, the first
    message of the stream was the full game; the board handed to the
    update loop is the board [setup_board] made of it, the replay of the
    game's moves from the unmoved board, which the first move of the
    engine has not changed; the engine was made on that board and
    prepared for the game before anything else; at most one move was
    submitted, and none when it was not the engine's turn. *)
Theorem first_phase_sets_the_stage :
  forall (engine_cfg : EngineConfig) (stream updates : list line)
         (s s1 : rt) (game : Game) (board : Board),
    first_phase engine_cfg stream s = (Returns (game, board, updates), s1) ->
    stream = Chunk (Some (GameFull game)) :: updates /\
    setup_board game = Returns board /\
    replay (unmoved board) (split (state_moves game)) = Returns board /\
    exists added,
      calls s1 = calls s ++ EngineFactory board :: PreGame game :: added /\
      (count is_make_move added <= 1)%nat /\
      (is_engine_move game (split (state_moves game)) = false ->
       added = []).
Proof.
  intros engine_cfg stream updates s s1 game board.
  destruct stream as [|[chunk|e] rest]; cbn [first_phase];
    [discriminate| |discriminate].
  intros H.
  apply bind_run in H. destruct H as (game0 & s2 & Hgame & H).
  apply bind_run in H. destruct H as (board0 & s3 & Hboard & H).
  apply bind_run in H. destruct H as ([] & s4 & Hfactory & H).
  apply bind_run in H. destruct H as ([] & s5 & Hpre & H).
  apply bind_run in H. destruct H as (board1 & s6 & Hfirst & H).
  injection H as <- <- <- <-.
  unfold lift in Hgame, Hboard.
  injection Hgame as Hgame <-. injection Hboard as Hboard <-.
  assert (Hchunk : chunk = Some (GameFull game0)).
  { destruct chunk as [[g|t|ms wt bt wi bi|t]|]; simpl in Hgame;
      try discriminate. now injection Hgame as ->. }
  unfold invoke in Hfactory, Hpre.
  destruct (engine_factory (world s) board0) as [w4 r4].
  injection Hfactory as -> <-.
  cbn [world calls] in Hpre.
  destruct (engine_pre_game w4 game0) as [w5 r5].
  injection Hpre as -> <-.
  assert (Hmove : board1 = board0 /\
                  exists added,
                    calls s6
                    = (calls s ++ [EngineFactory board0]) ++ [PreGame game0]
                      ++ added /\
                    (count is_make_move added <= 1)%nat /\
                    (is_engine_move game0 (split (state_moves game0)) = false
                     -> added = [])).
  { destruct (polyglot engine_cfg).
    - destruct (play_first_book_move_returns _ _ _ _ _ _ Hfirst)
        as (Hb & added & Hc & Hrest).
      split; [exact Hb|]. exists added. cbn [calls] in Hc.
      rewrite Hc, <- !app_assoc. auto.
    - destruct (play_first_move_returns _ _ _ _ _ Hfirst)
        as (Hb & added & Hc & Hrest).
      split; [exact Hb|]. exists added. cbn [calls] in Hc.
      rewrite Hc, <- !app_assoc. auto. }
  destruct Hmove as (-> & added & Hc & Hone & Hnone).
  subst chunk. split; [reflexivity|]. split; [exact Hboard|].
  split; [now apply setup_board_unmoved|].
  exists added. rewrite Hc, <- app_assoc. auto.
Qed.

(** *** A stream in step *)

Lemma last_item_snoc {A : Type} (l : list A) (x : A) :
  last_item (l ++ [x]) = Some x.
Proof.
  induction l as [|y l IH]; [reflexivity|].
  simpl. rewrite IH. destruct (l ++ [x]) eqn:E; [|reflexivity].
  destruct l; discriminate.
Qed.

(** Messages other than gameState leave the game and the board alone. *)
Lemma on_update_other_returns (engine_cfg : EngineConfig) (game : Game)
    (board : Board) (chunk : option update) (s : rt) (gb : Game * Board) :
  (forall moves wtime btime winc binc,
      chunk <> Some (GameState moves wtime btime winc binc)) ->
  fst (on_update engine_cfg game board chunk s) = Returns gb ->
  gb = (game, board).
Proof.
  intros Hother.
  assert (Hping : fst ((on_ping game ;; ret (game, board)) s) = Returns gb ->
                  gb = (game, board)).
  { intros H. apply bind_returns in H. destruct H as (_ & _ & H).
    now injection H. }
  destruct chunk as [[g|text|moves wtime btime winc binc|type]|];
    cbn [on_update].
  - now intros [= <-].
  - intros H. apply bind_returns in H. destruct H as (_ & _ & H).
    now injection H.
  - now destruct (Hother moves wtime btime winc binc).
  - destruct (String.eqb type "ping"); [exact Hping | now intros [= <-]].
  - exact Hping.
Qed.

Lemma on_update_other_emits (P : call -> Prop) (engine_cfg : EngineConfig)
    (game : Game) (board : Board) (chunk : option update) :
  (forall moves wtime btime winc binc,
      chunk <> Some (GameState moves wtime btime winc binc)) ->
  (forall text, P (React text)) ->
  P ShouldAbortNow -> P (Abort (game_id game)) ->
  emits P (on_update engine_cfg game board chunk).
Proof.
  intros Hother Hreact Hask Habort.
  assert (Hping : emits P (on_ping game ;; ret (game, board))).
  { unfold on_ping. repeat emits_step; assumption. }
  destruct chunk as [[g|text|moves wtime btime winc binc|type]|];
    cbn [on_update].
  - apply emits_ret.
  - repeat emits_step. apply Hreact.
  - now destruct (Hother moves wtime btime winc binc).
  - destruct (String.eqb type "ping"); [exact Hping | apply emits_ret].
  - exact Hping.
Qed.

(** The calls of the gameState branch are about the board with the last
    move pushed. *)
Lemma on_game_state_emits (P : call -> Prop) (engine_cfg : EngineConfig)
    (game : Game) (board : Board) (moves : string)
    (wtime btime winc binc : Z) :
  (forall last_move m,
      last_item (split moves) = Some last_move ->
      from_uci last_move = Some m ->
      P (ReaderChoice (push board m)) /\
      P (ReaderFind (push board m) (polyglot_min_weight engine_cfg)) /\
      P (Search (push board m) wtime btime winc binc)) ->
  P (OpenReader (polyglot_book engine_cfg)) ->
  (forall move, P (MakeMove (game_id game) move)) ->
  P (AbortIn 20) ->
  emits P (on_game_state engine_cfg game board moves wtime btime winc binc).
Proof.
  intros Hboard Hopen Hmove Habort s. unfold on_game_state.
  destruct (last_item (split moves)) as [mv|] eqn:Hlast;
    [|apply emits_raise].
  unfold update_board.
  destruct (from_uci mv) as [m|] eqn:Huci; [|apply emits_raise].
  destruct (Hboard _ _ eq_refl Huci) as (Hchoice & Hfind & Hsearch).
  match goal with
  | |- emits_at P (bind (lift (Returns ?b)) ?k) s =>
      change (emits_at P (k b) s)
  end.
  cbv beta. revert s. change (emits P ?m) with (emits P m).
  destruct (is_engine_move (set_state game moves) (split moves));
    [|apply emits_ret].
  apply emits_bind.
  - destruct (polyglot engine_cfg
              && (Z.of_nat (List.length (split moves))
                  <=? polyglot_max_depth engine_cfg * 2 - 1));
      [now apply get_book_move_emits | apply emits_ret].
  - intros book_move. apply emits_bind.
    + destruct book_move; [apply emits_ret | now apply emits_invoke].
    + intros best_move. repeat emits_step; [apply Hmove | exact Habort].
Qed.

Lemma update_loop_asks (engine_cfg : EngineConfig) (start : Board)
    (every : list line) (updates : list line) :
  forall (game : Game) (board : Board) (s : rt),
    incl updates every ->
    replay start (split (state_moves game)) = Returns board ->
    in_step (split (state_moves game)) updates ->
    emits_at (asks_about start every)
             (update_loop engine_cfg game board updates) s.
Proof.
  induction updates as [|[chunk|e] rest IH]; intros game board s Hincl Hpos Hstep;
    cbn [update_loop].
  - apply emits_ret.
  - assert (Hrest : incl rest every).
    { intros x Hx. apply Hincl. now right. }
    assert (Hother :
              (forall moves wtime btime winc binc,
                  chunk <> Some (GameState moves wtime btime winc binc)) ->
              emits_at (asks_about start every)
                (gb <- on_update engine_cfg game board chunk ;;
                 update_loop engine_cfg (fst gb) (snd gb) rest) s).
    { intros Hno. apply emits_at_bind.
      - apply on_update_other_emits; simpl; auto.
      - intros gb Hgb.
        rewrite (on_update_other_returns _ _ _ _ _ _ Hno Hgb). simpl.
        apply IH; auto.
        destruct chunk as [[g|text|moves wtime btime winc binc|type]|];
          try exact Hstep.
        now destruct (Hno moves wtime btime winc binc). }
    destruct chunk as [[g|text|moves wtime btime winc binc|type]|];
      try (apply Hother; discriminate).
    destruct Hstep as [[move Hmoves] Hstep].
    assert (Hlast : last_item (split moves) = Some move).
    { rewrite Hmoves. apply last_item_snoc. }
    assert (Hnext : forall m,
               from_uci move = Some m ->
               replay start (split moves) = Returns (push board m)).
    { intros m Huci. rewrite Hmoves, replay_app, Hpos.
      now apply replay_one. }
    apply emits_at_bind.
    + cbn [on_update]. apply on_game_state_emits; simpl; auto.
      intros mv m Hmv Huci. rewrite Hlast in Hmv. injection Hmv as <-.
      specialize (Hnext m Huci).
      assert (Hin : In (Chunk (Some (GameState moves wtime btime winc binc)))
                       every).
      { apply Hincl. now left. }
      repeat split; eauto 8.
    + intros gb Hgb. cbn [on_update] in Hgb. destruct gb as [game' board'].
      destruct (on_game_state_returns _ _ _ _ _ _ _ _ _ _ _ Hgb)
        as (mv & m & Hmv & Huci & -> & ->).
      rewrite Hlast in Hmv. injection Hmv as <-. simpl.
      apply IH; auto.
  - apply emits_raise.
Qed.

(** X13. When the stored board is the position of the moves of the
    stored game state, and every gameState update of the stream brings
    the moves known so far and one more, then every question the update
    loop puts to the engine or to the book is about the position of the
    full move list of an update of the stream, the engine being given
    the clock figures of that same update; the loop never asks for a
    first move and never makes another engine. *)
Theorem engine_is_asked_about_the_full_move_list :
  forall (engine_cfg : EngineConfig) (start : Board) (game : Game)
         (board : Board) (updates : list line) (s : rt),
    replay start (split (state_moves game)) = Returns board ->
    in_step (split (state_moves game)) updates ->
    emits_at (asks_about start updates)
             (update_loop engine_cfg game board updates) s.
Proof.
  intros engine_cfg start game board updates s Hpos Hstep.
  apply update_loop_asks; auto. apply incl_refl.
Qed.

End DriverFacts.

(** *** Runs of a session *)

Import Scenario.

(** C2. The claim asks for exactly one [engine.quit()] and exactly one
    local_game_done on every exit path of the session, failures of the
    initialization and of the first move included. The code does not
    give it there, because everything up to the first move runs before
    the [try]: when the first read of the stream raises
    RemoteDisconnected, and when the server refuses the first move with
    an HTTP error after the engine was made and asked, [play_game] ends
    with that exception, no [engine.quit()] and no local_game_done. The
    same two exceptions inside the update loop are caught and cleaned up
    after. *)
Lemma no_cleanup_when_first_phase_fails :
  fst (play_game with_book [Broken RemoteDisconnected] (fresh calm))
  = Raises RemoteDisconnected /\
  calls (snd (play_game with_book [Broken RemoteDisconnected] (fresh calm)))
  = [] /\
  fst (play_game without_book [Chunk (Some (GameFull as_white))]
         (fresh server_error))
  = Raises (HTTPError 500) /\
  calls (snd (play_game without_book [Chunk (Some (GameFull as_white))]
                (fresh server_error)))
  = [EngineFactory standard_board; PreGame as_white;
     FirstSearch standard_board 2000; MakeMove "g1" (uci "e2e4")] /\
  count is_quit
    (calls (snd (play_game without_book [Chunk (Some (GameFull as_white))]
                   (fresh server_error)))) = 0%nat /\
  count is_done
    (calls (snd (play_game without_book [Chunk (Some (GameFull as_white))]
                   (fresh server_error)))) = 0%nat.
Proof. vm_compute. repeat split. Qed.

Lemma cleanup_once_after_first_phase_witness :
  fst (play_game with_book three_moves_then_disconnect (fresh calm))
  = Returns tt /\
  count is_quit
    (calls (snd (play_game with_book three_moves_then_disconnect
                   (fresh calm)))) = 1%nat /\
  count is_done
    (calls (snd (play_game with_book three_moves_then_disconnect
                   (fresh calm)))) = 1%nat.
Proof.
  eassert (Hfirst : first_phase with_book three_moves_then_disconnect
                      (fresh calm) = (Returns (_, _, _), _))
    by (vm_compute; reflexivity).
  match type of Hfirst with
  | _ = (Returns (?g, ?b, ?u), ?s1) =>
      eassert (Hloop : update_loop with_book g b u s1 = (_, _))
        by (vm_compute; reflexivity)
  end.
  destruct (cleanup_once_after_first_phase _ _ _ _ _ _ _ Hfirst _ _ Hloop)
    as (Hrun & Hquit & Hdone).
  split; [|split].
  - rewrite Hrun. reflexivity.
  - exact Hquit.
  - exact Hdone.
Defined.

(** Two plies make a moves string of nine characters: no abort. *)
Example no_abort_after_two_plies :
  calls (snd (on_update with_book after_two_plies standard_board None
                (fresh idle)))
  = [ShouldAbortNow].
Proof. vm_compute. reflexivity. Qed.


Lemma book_consulted_only_within_depth_witness :
  count is_lookup
    (calls (snd (on_update with_book as_white standard_board
                   (Some (GameState "e2e4 e7e5 g1f3 b8c6" 60000 60000 0 0))
                   (fresh calm))))
  = count is_lookup (calls (fresh calm)).
Proof.
  refine (proj1 (proj2 (book_consulted_only_within_depth
                          with_book as_white standard_board
                          "e2e4 e7e5 g1f3 b8c6" 60000 60000 0 0
                          (fresh calm)) _)).
  vm_compute. reflexivity.
Defined.

Lemma book_failure_falls_back_to_engine_witness :
  fst (get_book_move standard_board with_book (fresh no_book)) = Returns None
  /\ fst (get_book_move standard_board with_book (fresh empty_book))
     = Returns None.
Proof.
  split.
  - refine (proj1 (proj2 (book_failure_falls_back_to_engine
                            with_book standard_board (fresh no_book))) _).
    vm_compute. exact I.
  - refine (proj1 (proj2 (book_failure_falls_back_to_engine
                            with_book standard_board (fresh empty_book))) _).
    vm_compute. exact I.
Defined.

(** C9, as stated, fails: two sessions that both play White, asked about
    the same empty move list, get different answers when Black is to
    move first in one of them (a game set up from a position). *)
Lemma same_colour_and_parity_other_first_mover :
  is_white as_white = is_white as_white_black_starts /\
  is_engine_move as_white [] = true /\
  is_engine_move as_white_black_starts [] = false /\
  ~ (forall (game1 game2 : Game) (moves1 moves2 : list string),
        is_white game1 = is_white game2 ->
        Nat.even (List.length moves1) = Nat.even (List.length moves2) ->
        is_engine_move game1 moves1 = is_engine_move game2 moves2).
Proof.
  repeat split.
  intros H. specialize (H as_white as_white_black_starts [] [] eq_refl eq_refl).
  discriminate H.
Qed.

Lemma turn_depends_on_colour_first_mover_and_parity_witness :
  is_engine_move as_white ["e2e4"; "e7e5"]%string = is_engine_move as_white [].
Proof.
  exact (proj1 (turn_depends_on_colour_first_mover_and_parity
                  as_white as_white ["e2e4"; "e7e5"]%string []
                  eq_refl eq_refl eq_refl)).
Defined.

Lemma game_state_pushes_last_move_only_witness :
  exists last_move m,
    last_item (split "e2e4") = Some last_move /\
    from_uci last_move = Some m /\
    {| board_setup := Variant "standard"; move_stack := [m] |}
    = push standard_board m.
Proof.
  eassert (H : fst (on_update with_book as_black standard_board
                      (Some (GameState "e2e4" 60000 60000 0 0)) (fresh calm))
               = Returns (_, _))
    by (vm_compute; reflexivity).
  destruct (game_state_pushes_last_move_only _ _ _ _ _ _ _ _ _ _ _ H)
    as (last_move & m & Hlast & Huci & Hboard & _).
  exists last_move, m. repeat split; assumption.
Defined.

Lemma turn_passes_with_every_ply_witness :
  is_engine_move as_white [] = negb (is_engine_move as_black []).
Proof.
  exact (proj2 turn_passes_with_every_ply as_white as_black []
               eq_refl eq_refl).
Defined.

Lemma setup_board_replays_the_moves_witness :
  exists board : Board,
    setup_board after_three_plies = Returns board /\
    List.length (move_stack board) = plies after_three_plies.
Proof.
  eexists. split; [vm_compute; reflexivity|].
  refine (proj1 (proj2 (proj1 setup_board_replays_the_moves
                              after_three_plies _ _))).
  vm_compute; reflexivity.
Defined.

Lemma unreadable_update_ends_the_session_witness :
  fst (play_game with_book blank_update_later (fresh calm))
  = Raises IndexError.
Proof.
  eassert (Hfirst : first_phase with_book blank_update_later (fresh calm)
                    = (Returns
                         (_, _,
                          [Chunk (Some (GameState "e2e4" 60000 60000 0 0));
                           Chunk None]
                          ++ Chunk (Some (GameState "" 60000 59000 0 0))
                             :: _),
                       _))
    by (vm_compute; reflexivity).
  match type of Hfirst with
  | _ = (Returns (?g, ?b, ?before ++ _), ?s1) =>
      eassert (Hbefore : update_loop with_book g b before s1
                         = (Returns tt, _))
        by (vm_compute; reflexivity)
  end.
  rewrite (proj1 (unreadable_update_ends_the_session
                    _ _ _ _ _ _ _ _ _ _ _ _ _ _ Hfirst Hbefore) eq_refl).
  reflexivity.
Defined.

Lemma no_abort_from_the_second_ply_witness :
  calls (snd (on_update with_book after_three_plies standard_board None
                (fresh idle)))
  = calls (fresh idle) ++ [ShouldAbortNow].
Proof.
  apply no_abort_from_the_second_ply.
  - vm_compute. repeat (constructor; [lia|]). constructor.
  - vm_compute. lia.
  - now left.
Defined.

Lemma moves_submitted_only_on_own_turn_witness :
  snd (on_update with_book as_white standard_board
         (Some (GameState "e2e4" 60000 60000 0 0)) (fresh calm))
  = fresh calm.
Proof.
  refine (proj1 (moves_submitted_only_on_own_turn
                   with_book as_white standard_board "e2e4"
                   60000 60000 0 0 (fresh calm)) _).
  vm_compute; reflexivity.
Defined.

Lemma book_move_is_played_without_engine_witness :
  count is_search
    (calls (snd (play_first_book_move as_white standard_board with_book
                   (fresh calm))))
  = count is_search (calls (fresh calm)).
Proof.
  eassert (Hbook : get_book_move standard_board with_book (fresh calm)
                   = (Returns (Some _), _))
    by (vm_compute; reflexivity).
  refine (proj2 (proj1 book_move_is_played_without_engine
                       as_white standard_board with_book _ _ _ _ Hbook)).
  vm_compute; reflexivity.
Defined.

Lemma first_phase_sets_the_stage_witness :
  setup_board as_black = Returns standard_board.
Proof.
  eassert (Hfirst : first_phase with_book three_moves_then_disconnect
                      (fresh calm) = (Returns (_, _, _), _))
    by (vm_compute; reflexivity).
  exact (proj1 (proj2 (first_phase_sets_the_stage _ _ _ _ _ _ _ Hfirst))).
Defined.

Lemma engine_is_asked_about_the_full_move_list_witness :
  emits_at (asks_about standard_board (tl three_moves_then_disconnect))
           (update_loop with_book as_black standard_board
                        (tl three_moves_then_disconnect))
           (fresh calm).
Proof.
  apply engine_is_asked_about_the_full_move_list.
  - vm_compute; reflexivity.
  - vm_compute. repeat split; eexists; reflexivity.
Defined.

End SessionFacts.
